(** * Whide: menu contribution parser and menu registry

    A shallow embedding of [src/api/parsers/MenuParser.ts] and
    [src/api/managers/MenuManager.ts], and the properties of the menu
    composition subsystem proved over it. *)

From Stdlib Require Import List String Ascii Bool ZArith Lia Permutation.
Import ListNotations.
Open Scope string_scope.
Open Scope list_scope.

Set Warnings "-register-all".

(** ** JavaScript values

    What [JSON.parse] can return, plus [undefined] (the result of reading
    a property that is not there). An object is its list of own
    properties in insertion order. A number is kept as an integer: the
    program only ever tests a number for truthiness. *)
Module JS.

Inductive value : Type :=
| VUndefined
| VNull
| VBool (b : bool)
| VNum (n : Z)
| VStr (s : string)
| VArr (elems : list value)
| VObj (props : list (string * value)).

(** [!!v] *)
Definition truthy (v : value) : bool :=
  match v with
  | VUndefined | VNull => false
  | VBool b => b
  | VNum n => negb (Z.eqb n 0)
  | VStr s => negb (String.eqb s "")
  | VArr _ | VObj _ => true
  end.

(** What a function can throw: [new Error(message)], or the [TypeError]
    of the runtime. *)
Inductive exn : Type :=
| Error (message : string)
| TypeError.

Inductive result (A : Type) : Type :=
| Ok (a : A)
| Throw (e : exn).
Arguments Ok {A} a.
Arguments Throw {A} e.

Definition bind {A B} (c : result A) (k : A -> result B) : result B :=
  match c with
  | Ok a => k a
  | Throw e => Throw e
  end.

(** Own property [key] of an object, [undefined] when there is none. *)
Fixpoint get_own (props : list (string * value)) (key : string) : value :=
  match props with
  | [] => VUndefined
  | (k, v) :: rest => if String.eqb k key then v else get_own rest key
  end.

(** [obj[key] = v] on the own properties: in place when the key exists,
    a new last property otherwise. *)
Fixpoint set_own (props : list (string * value)) (key : string) (v : value)
  : list (string * value) :=
  match props with
  | [] => [(key, v)]
  | (k, v0) :: rest =>
      if String.eqb k key then (k, v) :: rest
      else (k, v0) :: set_own rest key v
  end.

(** [v.key], for the keys the program reads ([name], [command],
    [children]): none of them is a built-in property of a string, a
    number, a boolean or an array, so only an object can answer
    something else than [undefined]; reading from [null] or [undefined]
    throws. *)
Definition get (v : value) (key : string) : result value :=
  match v with
  | VUndefined | VNull => Throw TypeError
  | VObj props => Ok (get_own props key)
  | _ => Ok VUndefined
  end.

(** [v.key = x] in strict code (a module is strict): an object takes
    the property, a primitive throws. An array would take it as an
    extra named property, which [VArr] does not record; the parser
    never assigns to an array, since an array has no [name] and so
    does not pass validation. *)
Definition assign (v : value) (key : string) (x : value) : result value :=
  match v with
  | VObj props => Ok (VObj (set_own props key x))
  | VArr elems => Ok (VArr elems)
  | _ => Throw TypeError
  end.

(** The regular expression class [\s] on code units below 256: tab,
    line feed, vertical tab, form feed, carriage return, space and
    no-break space. *)
Definition is_white_space (c : ascii) : bool :=
  let n := nat_of_ascii c in
  (Nat.leb 9 n && Nat.leb n 13) || Nat.eqb n 32 || Nat.eqb n 160.

(** [s.replace(/\s+/g, '')] *)
Fixpoint remove_white_space (s : string) : string :=
  match s with
  | EmptyString => EmptyString
  | String c rest =>
      if is_white_space c then remove_white_space rest
      else String c (remove_white_space rest)
  end.

(** The elements a [for...of] over a string yields: its characters, each
    a string of its own. *)
Fixpoint characters (s : string) : list value :=
  match s with
  | EmptyString => []
  | String c rest => VStr (String c EmptyString) :: characters rest
  end.

(** Look up own property [key] and continue with [present] on its value
    or with [absent]. *)
Section OwnProperty.
Context {R : Type}.
Variable key : string.
Variable present : value -> R.
Variable absent : R.

Fixpoint with_own_property (props : list (string * value)) : R :=
  match props with
  | [] => absent
  | (k, v) :: rest =>
      if String.eqb k key then present v else with_own_property rest
  end.
End OwnProperty.

End JS.

(** ** The menu types of MenuParser.ts *)

(** [PluginInfo] is imported from [@/api/types/PluginInfo]; both
    components only store and pass it on, so any JavaScript value may
    stand for it. *)
Definition PluginInfo : Type := JS.value.

(** [type MenuItem = { name, command, plugin }] *)
Record MenuItem : Type := mkMenuItem {
  item_name : string;
  command : string;
  plugin : PluginInfo;
}.

(** [type Menu = { name, children: (Menu|MenuItem)[] }] *)
Inductive Menu : Type := mkMenu {
  menu_name : string;
  children : list (Menu + MenuItem);
}.

(** The union [Menu|MenuItem]. *)
Definition MenuNode : Type := (Menu + MenuItem)%type.

(** [itm.name] on a value of the union type. *)
Definition name (itm : MenuNode) : string :=
  match itm with
  | inl m => menu_name m
  | inr i => item_name i
  end.

(** Structural induction over a menu and the menus below it. *)
Section Menu_induction.
Variable P : Menu -> Prop.
Hypothesis Hmenu : forall n ch,
  (forall sub, In (inl sub) ch -> P sub) -> P (mkMenu n ch).

Fixpoint Menu_nested_ind (m : Menu) : P m :=
  match m with
  | mkMenu n ch =>
      Hmenu n ch
        ((fix below (l : list MenuNode) : forall sub, In (inl sub) l -> P sub :=
            match l with
            | [] => fun _ (H : In _ []) => match H with end
            | x :: rest => fun sub (H : In (inl sub) (x :: rest)) =>
                match H with
                | or_introl e =>
                    match x as x0 return x0 = inl sub -> P sub with
                    | inl m0 => fun e0 =>
                        match e0 in _ = y
                              return match y with inl s => P s | inr _ => True end
                        with eq_refl => Menu_nested_ind m0 end
                    | inr _ => fun e0 =>
                        match e0 in _ = y
                              return match y with inl s => P s | inr _ => True end
                        with eq_refl => I end
                    end e
                | or_intror H' => below rest sub H'
                end
            end) ch)
  end.
End Menu_induction.

(** Structural induction over a value and the values inside it. *)
Section value_induction.
Variable P : JS.value -> Prop.
Hypothesis Hundefined : P JS.VUndefined.
Hypothesis Hnull : P JS.VNull.
Hypothesis Hbool : forall b, P (JS.VBool b).
Hypothesis Hnum : forall n, P (JS.VNum n).
Hypothesis Hstr : forall s, P (JS.VStr s).
Hypothesis Harr : forall elems, Forall P elems -> P (JS.VArr elems).
Hypothesis Hobj : forall props,
  Forall (fun kv => P (snd kv)) props -> P (JS.VObj props).

Fixpoint value_nested_ind (v : JS.value) : P v :=
  match v with
  | JS.VUndefined => Hundefined
  | JS.VNull => Hnull
  | JS.VBool b => Hbool b
  | JS.VNum n => Hnum n
  | JS.VStr s => Hstr s
  | JS.VArr elems =>
      Harr elems
        ((fix inside (l : list JS.value) : Forall P l :=
            match l with
            | [] => Forall_nil P
            | x :: rest => Forall_cons x (value_nested_ind x) (inside rest)
            end) elems)
  | JS.VObj props =>
      Hobj props
        ((fix inside (l : list (string * JS.value))
            : Forall (fun kv => P (snd kv)) l :=
            match l with
            | [] => Forall_nil _
            | kv :: rest =>
                Forall_cons kv (value_nested_ind (snd kv)) (inside rest)
            end) props)
  end.
End value_induction.

(** ** MenuParser.ts *)
Module MenuParser.
Import JS.

Notation "x <- c ;; k" := (JS.bind c (fun x => k))
  (at level 61, c at next level, right associativity).
Notation "' pat <- c ;; k" := (JS.bind c (fun x => match x with pat => k end))
  (at level 61, pat pattern, c at next level, right associativity).

(** What a callback returns, [boolean|void]: [None] is [undefined]. *)
Definition callback_result : Type := option bool.

(** [r === false] *)
Definition is_false (r : callback_result) : bool :=
  match r with
  | Some false => true
  | _ => false
  end.

(** [for (let m of l) { if (...) return false; } return true], where
    [visit] gives [false] when the body returns: the loop hands back the
    elements as the body left them, the state, and the return value. *)
Section ForOf.
Context {St : Type}.
Variable visit : value -> St -> result (value * St * bool).

Fixpoint for_of (l : list value) (s : St) : result (list value * St * bool) :=
  match l with
  | [] => Ok ([], s, true)
  | m :: rest =>
      '(m', s1, go_on) <- visit m s ;;
      if go_on : bool then
        '(rest', s2, r) <- for_of rest s1 ;;
        Ok (m' :: rest', s2, r)
      else Ok (m' :: rest, s1, false)
  end.
End ForOf.

(** [_menuForEach(menus, onMenu, onMenuItem)].

    The callbacks of the source close over a variable ([errorMsg]) or
    assign to the node they are given ([m.plugin = ...]); here a callback
    takes and returns the state [St] it closes over, and [onMenuItem]
    also returns the node as it left it. [onMenu] does not: neither
    [onMenu] callback of the source assigns to its node. The traversal
    returns [menus] as the callbacks left it. *)
Section MenuForEach.
Context {St : Type}.
Variable onMenu : value -> St -> result (St * callback_result).
Variable onMenuItem : value -> St -> result (value * St * callback_result).

(** The [else] branch of the loop body. *)
Definition visit_item (m : value) (s : St) : result (value * St * bool) :=
  '(m', s1, r) <- onMenuItem m s ;;
  Ok (m', s1, negb (is_false r)).

Fixpoint _menuForEach (menus : value) (s : St) {struct menus}
  : result (value * St * bool) :=
  match menus with
  | VArr elems =>
      '(elems', s', r) <-
        for_of
          (fun m s =>
             match m with
             | VUndefined | VNull => Throw TypeError
             | VObj props =>
                 with_own_property "children"
                   (fun m_children =>
                      if truthy m_children then
                        '(s1, r) <- onMenu m s ;;
                        if is_false r then Ok (m, s1, false)
                        else
                          '(children', s2, r) <- _menuForEach m_children s1 ;;
                          Ok (VObj (set_own props "children" children'), s2, r)
                      else visit_item m s)
                   (visit_item m s)
                   props
             | _ => visit_item m s
             end)
          elems s ;;
      Ok (VArr elems', s', r)
  | VStr str =>
      '(_, s', r) <- for_of visit_item (characters str) s ;;
      Ok (menus, s', r)
  | _ => Throw TypeError
  end.
End MenuForEach.

(** The body of the loop of [_menuForEach] over an array, by name. *)
Definition visit_node {St : Type}
  (onMenu : value -> St -> result (St * callback_result))
  (onMenuItem : value -> St -> result (value * St * callback_result))
  (m : value) (s : St) : result (value * St * bool) :=
  match m with
  | VUndefined | VNull => Throw TypeError
  | VObj props =>
      with_own_property "children"
        (fun m_children =>
           if truthy m_children then
             '(s1, r) <- onMenu m s ;;
             if is_false r then Ok (m, s1, false)
             else
               '(children', s2, r) <- _menuForEach onMenu onMenuItem m_children s1 ;;
               Ok (VObj (set_own props "children" children'), s2, r)
           else visit_item onMenuItem m s)
        (visit_item onMenuItem m s)
        props
  | _ => visit_item onMenuItem m s
  end.

(** [isEmpty] of [_getError]: despite its name it answers [true] for a
    string that has something else than white space in it. A truthy
    value that is not a string has no [replace] method to call. *)
Definition isEmpty (s : value) : result bool :=
  if truthy s then
    match s with
    | VStr str => Ok (truthy (VStr (remove_white_space str)))
    | _ => Throw TypeError
    end
  else Ok false.

(** The two callbacks of [_getError]; the state is [errorMsg]. *)
Definition check_menu (m : value) (errorMsg : string)
  : result (string * callback_result) :=
  m_name <- get m "name" ;;
  named <- isEmpty m_name ;;
  if negb named then Ok ("Menus must be named", Some false)
  else Ok (errorMsg, Some true).

Definition check_menu_item (m : value) (errorMsg : string)
  : result (value * string * callback_result) :=
  m_name <- get m "name" ;;
  named <- isEmpty m_name ;;
  if negb named then Ok (m, "Menu items must be named", Some false)
  else
    m_command <- get m "command" ;;
    has_command <- isEmpty m_command ;;
    if negb has_command then Ok (m, "Menu items must have a command", Some false)
    else Ok (m, errorMsg, Some true).

(** [_getError(menus)]: [false] ([inl false]) or the error message. *)
Definition _getError (menus : value) : result (bool + string) :=
  '(_, errorMsg, valid) <- _menuForEach check_menu check_menu_item menus "" ;;
  if valid : bool then Ok (inl false) else Ok (inr errorMsg).

(** [if (error)] and [`${error}`] on a [boolean|string]. *)
Definition truthy_error (error : bool + string) : bool :=
  match error with
  | inl b => b
  | inr msg => truthy (VStr msg)
  end.

Definition error_text (error : bool + string) : string :=
  match error with
  | inl true => "true"
  | inl false => "false"
  | inr msg => msg
  end.

Definition double_quote : string := String "034"%char EmptyString.

(** The two errors [parse] throws itself. *)
Definition FormatError : exn := Error "JSON in invalid format".
Definition SchemaError (error : string) : exn :=
  Error ("Invalid menus: " ++ double_quote ++ error ++ double_quote).

(** The two callbacks of the second pass of [parse]. *)
Definition skip_menu (m : value) (s : unit) : result (unit * callback_result) :=
  Ok (s, None).

Definition link_plugin (pluginInfo : PluginInfo) (m : value) (s : unit)
  : result (value * unit * callback_result) :=
  m' <- assign m "plugin" pluginInfo ;;
  Ok (m', s, None).

(** [parse(content, pluginInfo)]. [JSON.parse] belongs to the runtime:
    it is a parameter, [None] when it throws. *)
Section Parse.
Variable JSON_parse : string -> option value.

Definition parse (content : string) (pluginInfo : PluginInfo) : result value :=
  menus <- match JSON_parse content with
           | Some v => Ok v
           | None => Throw FormatError
           end ;;
  error <- _getError menus ;;
  if truthy_error error then Throw (SchemaError (error_text error))
  else
    '(menus', _, _) <- _menuForEach skip_menu (link_plugin pluginInfo) menus tt ;;
    Ok menus'.
End Parse.

End MenuParser.

(** ** MenuManager.ts *)
Module MenuManager.

(** [console.error] is the only effect besides the update of the menus:
    a computation returns its result together with the lines it printed. *)
Definition Console (A : Type) : Type := (A * list string)%type.

Definition ret {A} (a : A) : Console A := (a, []).

Definition bind {A B} (c : Console A) (k : A -> Console B) : Console B :=
  let (a, out1) := c in
  let (b, out2) := k a in
  (b, (out1 ++ out2)%list).

Definition console_error (msg : string) : Console unit := (tt, [msg]).

Notation "x <- c ;; k" := (bind c (fun x => k))
  (at level 61, c at next level, right associativity).
Notation "c ;;; k" := (bind c (fun _ => k))
  (at level 61, right associativity).

(** [for (let m of l) acc = body(acc, m)] over an array that the loop
    updates in place. *)
Section ForOf.
Context {A S : Type}.
Variable body : S -> A -> Console S.

Fixpoint for_of (l : list A) (acc : S) : Console S :=
  match l with
  | [] => ret acc
  | m :: rest => acc' <- body acc m ;; for_of rest acc'
  end.
End ForOf.

(** [_isMenu(itm)] is [!!itm.children]: a [Menu] always carries an array
    (truthy, even when empty), a [MenuItem] has no such property. *)
Definition _isMenu (itm : MenuNode) : bool :=
  match itm with
  | inl _ => true
  | inr _ => false
  end.

(** The cast [<Menu>itm], meaningful when [_isMenu itm] holds. *)
Definition as_Menu (itm : MenuNode) : option Menu :=
  match itm with
  | inl m => Some m
  | inr _ => None
  end.

(** The first half of [_registerMenu]: look left to right for a menu
    named [target]; [merge] is what the second half then does to the
    children of [found_menu], which is either the menu found (updated in
    place) or a new empty menu pushed at the end. *)
Section FoundMenu.
Variable target : string.
Variable merge : list MenuNode -> Console (list MenuNode).

Fixpoint with_found_menu (existing_menus : list MenuNode)
  : Console (list MenuNode) :=
  match existing_menus with
  | [] =>
      ch <- merge [] ;;
      ret [inl (mkMenu target ch)]
  | itm :: rest =>
      match (if _isMenu itm && String.eqb (name itm) target
             then as_Menu itm else None) with
      | Some found_menu =>
          ch <- merge (children found_menu) ;;
          ret (inl (mkMenu (menu_name found_menu) ch) :: rest)
      | None =>
          rest' <- with_found_menu rest ;;
          ret (itm :: rest')
      end
  end.
End FoundMenu.

(** [_registerMenuItem(existing_menus, new_item)] *)
Definition _registerMenuItem (existing_menus : list MenuNode)
  (new_item : MenuItem) : Console (list MenuNode) :=
  let found :=
    existsb (fun itm => String.eqb (name itm) (item_name new_item)
                        && negb (_isMenu (inr new_item)))
            existing_menus in
  if negb found then
    ret (existing_menus ++ [inr new_item])
  else
    console_error "Menu item already registered" ;;;
    ret existing_menus.

(** [_registerMenu(existing_menus, new_item)] *)
Fixpoint _registerMenu (existing_menus : list MenuNode) (new_item : Menu)
  {struct new_item} : Console (list MenuNode) :=
  with_found_menu (menu_name new_item)
    (for_of (fun found_children m =>
               match m with
               | inl sub => _registerMenu found_children sub
               | inr item => _registerMenuItem found_children item
               end)
            (children new_item))
    existing_menus.

(** One merge step of the second half of [_registerMenu]. *)
Definition _registerNode (found_children : list MenuNode) (m : MenuNode)
  : Console (list MenuNode) :=
  match m with
  | inl sub => _registerMenu found_children sub
  | inr item => _registerMenuItem found_children item
  end.

(** The loop [for (let m of new_item.children)]. *)
Definition merge_children (new_children found_children : list MenuNode)
  : Console (list MenuNode) :=
  for_of _registerNode new_children found_children.

(** [_unregisterMenu(existing_menus, new_item)]: the body is a single
    [TODO] comment. *)
Definition _unregisterMenu (existing_menus : list MenuNode)
  (new_item : MenuNode) : Console (list MenuNode) :=
  ret existing_menus.

(** [class MenuManager] *)
Record MenuManager : Type := mkMenuManager {
  _menus : list MenuNode;
}.

Definition constructor : MenuManager := {| _menus := [] |}.

(** [get menus()] *)
Definition menus (this : MenuManager) : list MenuNode := _menus this.

(** [register(menu)] *)
Definition register (this : MenuManager) (menu : Menu) : Console MenuManager :=
  ms <- _registerMenu (_menus this) menu ;;
  ret {| _menus := ms |}.

(** [unregister(menu)] *)
Definition unregister (this : MenuManager) (menu : Menu) : Console MenuManager :=
  ms <- _unregisterMenu (_menus this) (inl menu) ;;
  ret {| _menus := ms |}.

(** Modelled from the spec: the caller that hands a parsed forest to the
    registry is not part of the sources; section 4.2 has it merge the
    forest one top-level node at a time, in order. *)
Definition register_forest (this : MenuManager) (forest : list Menu)
  : Console MenuManager :=
  for_of register forest this.

(** Modelled from the spec: likewise for [unregister], one top-level
    node at a time. *)
Definition unregister_forest (this : MenuManager) (forest : list Menu)
  : Console MenuManager :=
  for_of unregister forest this.

End MenuManager.

(** ** JavaScript arrays

    The array methods the store uses, on lists. An element is compared
    with [===]: for the objects of the store that is identity, given
    here as a decision of equality on the type that stands for them. An
    index is an integer ([Z]); numbers that are not integers are not
    modelled. *)
Module JSArray.
Section Array.
Context {A : Type}.
Variable same : forall a b : A, {a = b} + {a <> b}.

(** [l.indexOf(x)]: the first index of [x], [-1] when there is none. *)
Fixpoint indexOf (l : list A) (x : A) : Z :=
  match l with
  | [] => (-1)%Z
  | y :: rest =>
      if same y x then 0%Z
      else
        let i := indexOf rest x in
        if (i <? 0)%Z then (-1)%Z else (i + 1)%Z
  end.

(** [l.includes(x)] *)
Definition includes (l : list A) (x : A) : bool :=
  existsb (fun y => if same y x then true else false) l.

(** [l[i]], [undefined] ([None]) out of the array. *)
Definition at_index (l : list A) (i : Z) : option A :=
  if (i <? 0)%Z then None else nth_error l (Z.to_nat i).

(** [l.splice(start, deleteCount, ...items)]: the array as it is left,
    and the array of the deleted elements it returns. A negative
    [start] counts from the end; both numbers are clamped to the
    array. *)
Definition splice (l : list A) (start deleteCount : Z) (items : list A)
  : list A * list A :=
  let len := Z.of_nat (List.length l) in
  let actualStart :=
    if (start <? 0)%Z then Z.max (len + start) 0 else Z.min start len in
  let actualDeleteCount := Z.min (Z.max deleteCount 0) (len - actualStart) in
  let from := Z.to_nat actualStart in
  let count := Z.to_nat actualDeleteCount in
  (firstn from l ++ items ++ skipn (from + count) l,
   firstn count (skipn from l)).
End Array.
End JSArray.

(** ** plugins/vuex/index.ts: the store *)
Module Store.

(** [enum APP_THEME] *)
Inductive APP_THEME : Type := AUTO | LIGHT | DARK.

Record SettingsGeneralState : Type := mkSettingsGeneralState {
  hwhilePath : string;
}.

Record SettingsAppearanceState : Type := mkSettingsAppearanceState {
  theme : APP_THEME;
}.

Record SettingsState : Type := mkSettingsState {
  general : SettingsGeneralState;
  appearance : SettingsAppearanceState;
}.

(** [RunConfiguration] and [FileInfoState] are imported from [@/types]:
    the store only stores these objects, compares them with [===] and
    assigns the [extWhile] of a file; they are taken as two types of
    object identities with decidable equality. *)
Section WithObjects.
Context {RunConfiguration FileInfoState : Type}.
Variable same_config : forall a b : RunConfiguration, {a = b} + {a <> b}.
Variable same_file : forall a b : FileInfoState, {a = b} + {a <> b}.

(** [interface RootState]; [undefined] is [None]. *)
Record RootState : Type := mkRootState {
  runConfigurations : list RunConfiguration;
  chosenRunConfig : option RunConfiguration;
  settings : SettingsState;
  openFiles : list FileInfoState;
  focusedFile : Z;
  current_directory : option string;
  isElectron : bool;
}.

(** The [state] the store starts with; [isElectron] is read from the
    window. *)
Definition initial_state (window_has_require : bool) : RootState :=
  {| runConfigurations := [];
     chosenRunConfig := None;
     settings := {| general := {| hwhilePath := "" |};
                    appearance := {| theme := AUTO |} |};
     openFiles := [];
     focusedFile := (-1)%Z;
     current_directory := None;
     isElectron := window_has_require |}.

Definition set_runConfigurations (state : RootState)
  (l : list RunConfiguration) : RootState :=
  {| runConfigurations := l;
     chosenRunConfig := chosenRunConfig state;
     settings := settings state;
     openFiles := openFiles state;
     focusedFile := focusedFile state;
     current_directory := current_directory state;
     isElectron := isElectron state |}.

Definition set_chosenRunConfig (state : RootState)
  (c : option RunConfiguration) : RootState :=
  {| runConfigurations := runConfigurations state;
     chosenRunConfig := c;
     settings := settings state;
     openFiles := openFiles state;
     focusedFile := focusedFile state;
     current_directory := current_directory state;
     isElectron := isElectron state |}.

Definition set_settings (state : RootState) (st : SettingsState) : RootState :=
  {| runConfigurations := runConfigurations state;
     chosenRunConfig := chosenRunConfig state;
     settings := st;
     openFiles := openFiles state;
     focusedFile := focusedFile state;
     current_directory := current_directory state;
     isElectron := isElectron state |}.

Definition set_openFiles (state : RootState) (l : list FileInfoState)
  : RootState :=
  {| runConfigurations := runConfigurations state;
     chosenRunConfig := chosenRunConfig state;
     settings := settings state;
     openFiles := l;
     focusedFile := focusedFile state;
     current_directory := current_directory state;
     isElectron := isElectron state |}.

Definition set_focusedFile (state : RootState) (i : Z) : RootState :=
  {| runConfigurations := runConfigurations state;
     chosenRunConfig := chosenRunConfig state;
     settings := settings state;
     openFiles := openFiles state;
     focusedFile := i;
     current_directory := current_directory state;
     isElectron := isElectron state |}.

Definition set_current_directory (state : RootState) (d : option string)
  : RootState :=
  {| runConfigurations := runConfigurations state;
     chosenRunConfig := chosenRunConfig state;
     settings := settings state;
     openFiles := openFiles state;
     focusedFile := focusedFile state;
     current_directory := d;
     isElectron := isElectron state |}.

(** [addRunConfig(state, config)] *)
Definition addRunConfig (state : RootState) (config : RunConfiguration)
  : RootState :=
  let state := set_runConfigurations state (runConfigurations state ++ [config]) in
  match chosenRunConfig state with
  | None => set_chosenRunConfig state (Some config)
  | Some _ => state
  end.

(** [removeRunConfig(state, config)], [config] an object or a number. *)
Definition removeRunConfig (state : RootState)
  (config : RunConfiguration + Z) : RootState :=
  let config : Z :=
    match config with
    | inl c => JSArray.indexOf same_config (runConfigurations state) c
    | inr n => n
    end in
  let (remaining, deleted) :=
    JSArray.splice (runConfigurations state) config 1 [] in
  let state := set_runConfigurations state remaining in
  match chosenRunConfig state with
  | None => state
  | Some chosen =>
      if Nat.eqb (List.length (runConfigurations state)) 0 then
        set_chosenRunConfig state None
      else if JSArray.includes same_config deleted chosen then
        let index :=
          Z.min config (Z.of_nat (List.length (runConfigurations state)) - 1) in
        set_chosenRunConfig state
          (JSArray.at_index (runConfigurations state) index)
      else state
  end.

(** [overwriteRunConfig(state, [oldConfig, newConfig])] *)
Definition overwriteRunConfig (state : RootState)
  (configs : RunConfiguration * RunConfiguration) : RootState :=
  let (oldConfig, newConfig) := configs in
  let index := JSArray.indexOf same_config (runConfigurations state) oldConfig in
  if (index =? -1)%Z then state
  else
    let (replaced, _) :=
      JSArray.splice (runConfigurations state) index 1 [newConfig] in
    let state' := set_runConfigurations state replaced in
    match chosenRunConfig state' with
    | Some chosen =>
        if same_config oldConfig chosen
        then set_chosenRunConfig state' (Some newConfig)
        else state'
    | None => state'
    end.

(** [setChosenRunConfig(state, config)] *)
Definition setChosenRunConfig (state : RootState) (config : RunConfiguration)
  : RootState :=
  set_chosenRunConfig state (Some config).

(** [setAppTheme(state, theme)] *)
Definition setAppTheme (state : RootState) (new_theme : APP_THEME) : RootState :=
  set_settings state
    {| general := general (settings state);
       appearance := {| theme := new_theme |} |}.

(** [setHWhilePath(state, hwhilePath)] *)
Definition setHWhilePath (state : RootState) (path : string) : RootState :=
  set_settings state
    {| general := {| hwhilePath := path |};
       appearance := appearance (settings state) |}.

(** ['openFiles.set'] *)
Definition openFiles_set (state : RootState) (files : list FileInfoState)
  : RootState :=
  set_openFiles state files.

(** ['openFiles.setFocused'], [file] a number or an object. *)
Definition openFiles_setFocused (state : RootState) (file : Z + FileInfoState)
  : RootState :=
  match file with
  | inl n => set_focusedFile state n
  | inr f => set_focusedFile state (JSArray.indexOf same_file (openFiles state) f)
  end.

(** ['openFiles.focused.setExtended']: the state stays as it is, the
    assignment goes to the file object. [extWhile] gives the [extWhile]
    of every file object before, the result gives it after; assigning
    to [undefined] throws. *)
Definition openFiles_focused_setExtended (state : RootState)
  (extWhile : FileInfoState -> bool) (isExt : bool)
  : JS.result (FileInfoState -> bool) :=
  if (0 <=? focusedFile state)%Z then
    match JSArray.at_index (openFiles state) (focusedFile state) with
    | Some focused =>
        JS.Ok (fun f => if same_file f focused then isExt else extWhile f)
    | None => JS.Throw JS.TypeError
    end
  else JS.Ok extWhile.

(** ['cwd.set'] *)
Definition cwd_set (state : RootState) (directory : string) : RootState :=
  set_current_directory state (Some directory).

(** The three mutations of the run configurations, by name and payload,
    and [store.commit] on them. *)
Inductive run_config_mutation : Type :=
| AddRunConfig (config : RunConfiguration)
| RemoveRunConfig (config : RunConfiguration + Z)
| OverwriteRunConfig (oldConfig newConfig : RunConfiguration).

Definition commit (state : RootState) (m : run_config_mutation) : RootState :=
  match m with
  | AddRunConfig config => addRunConfig state config
  | RemoveRunConfig config => removeRunConfig state config
  | OverwriteRunConfig oldConfig newConfig =>
      overwriteRunConfig state (oldConfig, newConfig)
  end.

(** The chosen run configuration, when there is one, is in the list. *)
Definition chosen_in_list (state : RootState) : Prop :=
  match chosenRunConfig state with
  | None => True
  | Some chosen => In chosen (runConfigurations state)
  end.

(** There is a chosen run configuration exactly when the list has one
    to choose, and it is in the list. *)
Definition chosen_when_possible (state : RootState) : Prop :=
  match chosenRunConfig state with
  | None => runConfigurations state = []
  | Some chosen => In chosen (runConfigurations state)
  end.
End WithObjects.

Arguments RootState : clear implicits.

End Store.

(** ** config/file-operations/commands/new_folder.js: the validator of
    the folder name *)
Module NewFolder.

(** The class [[a-zA-Z0-9_ \-.]] of the regular expression. *)
Definition in_class (c : ascii) : bool :=
  let n := nat_of_ascii c in
  (Nat.leb 97 n && Nat.leb n 122) ||
  (Nat.leb 65 n && Nat.leb n 90) ||
  (Nat.leb 48 n && Nat.leb n 57) ||
  Nat.eqb n 95 || Nat.eqb n 32 || Nat.eqb n 45 || Nat.eqb n 46.

Fixpoint all_in_class (s : string) : bool :=
  match s with
  | EmptyString => true
  | String c rest => in_class c && all_in_class rest
  end.

(** [validator(name)] is [name.match(/^[a-zA-Z0-9_ \-.]+$/)]: [null]
    ([None]), or the array of the match, whose one element is the whole
    name. *)
Definition validator (name : string) : option (list string) :=
  match name with
  | EmptyString => None
  | String _ _ => if all_in_class name then Some [name] else None
  end.

End NewFolder.

(** ** Notions the properties are stated with *)

(** The menus, respectively the menu items, of one sibling list, by name. *)
Definition menu_names (l : list MenuNode) : list string :=
  flat_map (fun itm => match itm with inl m => [menu_name m] | inr _ => [] end) l.

Definition item_names (l : list MenuNode) : list string :=
  flat_map (fun itm => match itm with inl _ => [] | inr i => [item_name i] end) l.

(** Every node of a menu, of a node and of a forest, depth first and
    left to right, a menu before its children. *)
Fixpoint menu_nodes (m : Menu) : list MenuNode :=
  inl m :: flat_map (fun c => match c with
                              | inl sub => menu_nodes sub
                              | inr i => [inr i]
                              end) (children m).

Definition node_nodes (n : MenuNode) : list MenuNode :=
  match n with
  | inl m => menu_nodes m
  | inr i => [inr i]
  end.

Definition forest_nodes (forest : list MenuNode) : list MenuNode :=
  flat_map node_nodes forest.

(** The number of menu items of a forest, at every depth. *)
Definition count_items (forest : list MenuNode) : nat :=
  List.length (item_names (forest_nodes forest)).

(** Every name a forest uses, at every depth. *)
Definition all_names (forest : list MenuNode) : list string :=
  map name (forest_nodes forest).

(** Name uniqueness per sibling list: in [l], and in the children of
    every menu of [l], no two menus share a name and no two menu items
    share a name. *)
Inductive unique_names : list MenuNode -> Prop :=
| unique_names_intro l :
    NoDup (menu_names l) ->
    NoDup (item_names l) ->
    (forall m, In (inl m) l -> unique_names (children m)) ->
    unique_names l.

(** [extends l l']: [l'] is [l] with nodes added, at the end of [l] or
    at the end of the children of its menus, and nothing else changed. *)
Inductive extends : list MenuNode -> list MenuNode -> Prop :=
| extends_nil added : extends [] added
| extends_item i l l' :
    extends l l' -> extends (inr i :: l) (inr i :: l')
| extends_menu m m' l l' :
    menu_name m = menu_name m' ->
    extends (children m) (children m') ->
    extends l l' ->
    extends (inl m :: l) (inl m' :: l').

(** [absorbed l n]: merging [n] into [l] has nothing left to add. A menu
    item is absorbed when a sibling has its name; a menu when the first
    menu of its name has absorbed all its children. *)
Inductive absorbed : list MenuNode -> MenuNode -> Prop :=
| absorbed_item l i :
    In (item_name i) (map name l) ->
    absorbed l (inr i)
| absorbed_menu l m before found after :
    l = before ++ inl found :: after ->
    ~ In (menu_name m) (menu_names before) ->
    menu_name found = menu_name m ->
    (forall c, In c (children m) -> absorbed (children found) c) ->
    absorbed l (inl m).

(** The line [_registerMenuItem] prints for an item it discards. *)
Definition conflict : string := "Menu item already registered".

(** Two forests share no name, at any depth. *)
Definition share_no_names (A B : list Menu) : Prop :=
  forall n, In n (all_names (map inl A)) -> ~ In n (all_names (map inl B)).

(** A string that is empty or has only white space in it. *)
Fixpoint blank (s : string) : bool :=
  match s with
  | EmptyString => true
  | String c rest => JS.is_white_space c && blank rest
  end.

(** A node that breaks a rule of the schema: a blank name, or for a menu
    item a blank command. *)
Definition invalid_node (n : MenuNode) : bool :=
  blank (name n) ||
  match n with
  | inl _ => false
  | inr i => blank (command i)
  end.

(** The rule a node breaks, the name before the command. *)
Definition rule_violated (n : MenuNode) : option string :=
  match n with
  | inl m =>
      if blank (menu_name m) then Some "Menus must be named" else None
  | inr i =>
      if blank (item_name i) then Some "Menu items must be named"
      else if blank (command i) then Some "Menu items must have a command"
      else None
  end.

(** The rule broken by the first node that breaks one. *)
Fixpoint first_violation (nodes : list MenuNode) : option string :=
  match nodes with
  | [] => None
  | n :: rest =>
      match rule_violated n with
      | Some msg => Some msg
      | None => first_violation rest
      end
  end.

(** What the first pass over nodes in this order leaves in [errorMsg]
    and answers: the rule first broken and [false], or [errorMsg] as it
    was and [true]. *)
Definition verdict (errorMsg : string) (nodes : list MenuNode) : string * bool :=
  match first_violation nodes with
  | Some msg => (msg, false)
  | None => (errorMsg, true)
  end.

(** A JavaScript value of the shape of a [Menu] or of a [MenuItem], and
    the typed node it stands for. A menu is an object with a string
    [name] and an array [children] of such values; a menu item is an
    object with strings [name] and [command] and no (truthy) [children];
    its [plugin] is whatever the object has there. *)
Inductive represents : JS.value -> MenuNode -> Prop :=
| represents_menu props m kids :
    JS.get_own props "name" = JS.VStr (menu_name m) ->
    JS.get_own props "children" = JS.VArr kids ->
    Forall2 represents kids (children m) ->
    represents (JS.VObj props) (inl m)
| represents_item props i :
    JS.get_own props "name" = JS.VStr (item_name i) ->
    JS.get_own props "command" = JS.VStr (command i) ->
    JS.truthy (JS.get_own props "children") = false ->
    JS.get_own props "plugin" = plugin i ->
    represents (JS.VObj props) (inr i).

(** An array of such values, and the forest it stands for. *)
Definition represents_forest (v : JS.value) (forest : list MenuNode) : Prop :=
  exists elems, v = JS.VArr elems /\ Forall2 represents elems forest.

(** A menu, a node, with [pluginInfo] as the plugin of every menu item. *)
Fixpoint menu_with_plugin (pluginInfo : PluginInfo) (m : Menu) : Menu :=
  mkMenu (menu_name m)
    (map (fun c => match c with
                   | inl sub => inl (menu_with_plugin pluginInfo sub)
                   | inr i => inr (mkMenuItem (item_name i) (command i) pluginInfo)
                   end) (children m)).

Definition node_with_plugin (pluginInfo : PluginInfo) (n : MenuNode) : MenuNode :=
  match n with
  | inl m => inl (menu_with_plugin pluginInfo m)
  | inr i => inr (mkMenuItem (item_name i) (command i) pluginInfo)
  end.

(** The plugin of a node, when it is a menu item, is [pluginInfo]. *)
Definition plugin_is (pluginInfo : PluginInfo) (n : MenuNode) : Prop :=
  match n with
  | inl _ => True
  | inr i => plugin i = pluginInfo
  end.

(** The three messages of [_getError]. *)
Definition schema_rules : list string :=
  ["Menus must be named"; "Menu items must be named";
   "Menu items must have a command"].

(** All the names of a sibling list differ, menus and menu items taken
    together, and so do those of the children of each of its menus. *)
Inductive distinct_names : list MenuNode -> Prop :=
| distinct_names_intro l :
    NoDup (map name l) ->
    (forall m, In (inl m) l -> distinct_names (children m)) ->
    distinct_names l.

(** * Properties of the menu registry *)
Module Registry.
Import MenuManager.

Ltac console := unfold bind, ret, console_error in *; simpl in *.

Lemma menu_names_app (a b : list MenuNode) :
  menu_names (a ++ b) = menu_names a ++ menu_names b.
Proof. apply flat_map_app. Qed.

Lemma item_names_app (a b : list MenuNode) :
  item_names (a ++ b) = item_names a ++ item_names b.
Proof. apply flat_map_app. Qed.

Lemma in_menu_names (l : list MenuNode) (n : string) :
  In n (menu_names l) <-> exists m, In (inl m) l /\ menu_name m = n.
Proof.
  unfold menu_names. rewrite in_flat_map. split.
  - intros [[m | i] [Hin Hn]]; simpl in Hn; [| tauto].
    destruct Hn as [Hn | []]. eauto.
  - intros [m [Hin Hn]]. exists (inl m). simpl. auto.
Qed.

Lemma in_item_names (l : list MenuNode) (n : string) :
  In n (item_names l) <-> exists i, In (inr i) l /\ item_name i = n.
Proof.
  unfold item_names. rewrite in_flat_map. split.
  - intros [[m | i] [Hin Hn]]; simpl in Hn; [tauto |].
    destruct Hn as [Hn | []]. eauto.
  - intros [i [Hin Hn]]. exists (inr i). simpl. auto.
Qed.

(** The search of [_registerMenu] stops at the first menu of the name. *)
Lemma menu_named_split (target : string) (l : list MenuNode) :
  In target (menu_names l) ->
  exists before found after,
    l = before ++ inl found :: after /\
    menu_name found = target /\
    ~ In target (menu_names before).
Proof.
  induction l as [| itm l IH]; simpl; [tauto |].
  destruct itm as [m | i]; simpl.
  - destruct (string_dec (menu_name m) target) as [E | NE].
    + intros _. exists [], m, l. simpl. auto.
    + intros [E | Hin]; [contradiction |].
      destruct (IH Hin) as (before & found & after & -> & Hn & Hb).
      exists (inl m :: before), found, after. simpl. intuition.
  - intros Hin. destruct (IH Hin) as (before & found & after & -> & Hn & Hb).
    exists (inr i :: before), found, after. simpl. intuition.
Qed.

Section FoundMenuFacts.
Variable target : string.
Variable merge : list MenuNode -> Console (list MenuNode).

Lemma with_found_menu_skip (before rest : list MenuNode) :
  ~ In target (menu_names before) ->
  with_found_menu target merge (before ++ rest) =
  (rest' <- with_found_menu target merge rest ;; ret (before ++ rest')).
Proof.
  induction before as [| itm before IH]; intros Hb; simpl.
  - console. destruct (with_found_menu target merge rest) as [r out].
    now rewrite app_nil_r.
  - assert (Hstep : (if _isMenu itm && String.eqb (name itm) target
                     then as_Menu itm else None) = None).
    { destruct itm as [m | i]; simpl; [| reflexivity].
      destruct (String.eqb_spec (menu_name m) target) as [E | NE];
        [| reflexivity].
      exfalso. apply Hb. simpl. auto. }
    rewrite Hstep, IH.
    + console. destruct (with_found_menu target merge rest) as [r out].
      now rewrite !app_nil_r.
    + intros Hin. apply Hb. destruct itm; simpl; auto.
Qed.

Lemma with_found_menu_found (before after : list MenuNode) (found : Menu) :
  ~ In target (menu_names before) ->
  menu_name found = target ->
  with_found_menu target merge (before ++ inl found :: after) =
  (ch <- merge (children found) ;;
   ret (before ++ inl (mkMenu target ch) :: after)).
Proof.
  intros Hb Hn. rewrite with_found_menu_skip by assumption.
  simpl. rewrite Hn, String.eqb_refl. console.
  destruct (merge (children found)) as [ch out].
  now rewrite !app_nil_r, Hn.
Qed.

Lemma with_found_menu_missing (l : list MenuNode) :
  ~ In target (menu_names l) ->
  with_found_menu target merge l =
  (ch <- merge [] ;; ret (l ++ [inl (mkMenu target ch)])).
Proof.
  intros Hl. rewrite <- (app_nil_r l) at 1.
  rewrite with_found_menu_skip by assumption.
  simpl with_found_menu. console. destruct (merge []) as [ch out].
  now rewrite !app_nil_r.
Qed.
End FoundMenuFacts.

Lemma _registerMenu_eq (existing_menus : list MenuNode) (new_item : Menu) :
  _registerMenu existing_menus new_item =
  with_found_menu (menu_name new_item)
    (merge_children (children new_item)) existing_menus.
Proof. destruct new_item. reflexivity. Qed.

Lemma _registerMenuItem_eq (existing_menus : list MenuNode) (new_item : MenuItem) :
  _registerMenuItem existing_menus new_item =
  if in_dec string_dec (item_name new_item) (map name existing_menus)
  then (existing_menus, ["Menu item already registered"])
  else (existing_menus ++ [inr new_item], []).
Proof.
  unfold _registerMenuItem. simpl.
  destruct (in_dec string_dec _ _) as [Hin | Hout].
  - replace (existsb _ existing_menus) with true; [reflexivity |].
    symmetry. apply existsb_exists.
    apply in_map_iff in Hin. destruct Hin as [itm [Hn Hin]].
    exists itm. split; [assumption |].
    rewrite Hn, String.eqb_refl. reflexivity.
  - replace (existsb _ existing_menus) with false; [reflexivity |].
    symmetry. apply not_true_is_false. intros Hex.
    apply existsb_exists in Hex. destruct Hex as [itm [Hin Hn]].
    apply Hout. apply in_map_iff. exists itm. split; [| assumption].
    rewrite andb_true_r in Hn. now apply String.eqb_eq.
Qed.

Lemma for_of_cons {A S} (body : S -> A -> Console S) m rest acc :
  for_of body (m :: rest) acc = (acc' <- body acc m ;; for_of body rest acc').
Proof. reflexivity. Qed.

Lemma for_of_app {A S} (body : S -> A -> Console S) l1 l2 acc :
  for_of body (l1 ++ l2) acc = (acc' <- for_of body l1 acc ;; for_of body l2 acc').
Proof.
  revert acc. induction l1 as [| m l1 IH]; intros acc; simpl.
  - console. now destruct (for_of body l2 acc).
  - console. destruct (body acc m) as [acc1 out1]. rewrite IH. console.
    destruct (for_of body l1 acc1) as [acc2 out2].
    destruct (for_of body l2 acc2) as [acc3 out3].
    now rewrite app_assoc.
Qed.

(** ** [unregister] *)

Lemma unregister_eq (this : MenuManager) (menu : Menu) :
  unregister this menu = (this, []).
Proof. destruct this. reflexivity. Qed.

Lemma unregister_forest_eq (forest : list Menu) (this : MenuManager) :
  unregister_forest this forest = (this, []).
Proof.
  unfold unregister_forest. induction forest as [| m forest IH].
  - reflexivity.
  - rewrite for_of_cons, unregister_eq. unfold bind. now rewrite IH.
Qed.

(** C10: whatever the registry holds and whatever it is asked to remove,
    [unregister] returns the registry as it was, with every node in
    place, and prints nothing; so does unregistering a whole forest. *)
Theorem unregister_changes_nothing :
  forall (this : MenuManager) (menu : Menu) (forest : list Menu),
    menus (fst (unregister this menu)) = menus this /\
    unregister this menu = (this, []) /\
    unregister_forest this forest = (this, []).
Proof.
  intros this menu forest. rewrite unregister_eq, unregister_forest_eq.
  auto.
Qed.

Lemma with_found_menu_not_nil target merge (l : list MenuNode) :
  fst (with_found_menu target merge l) <> [].
Proof.
  destruct l as [| itm rest]; simpl.
  - console. destruct (merge []). discriminate.
  - destruct (if _isMenu itm && String.eqb (name itm) target
              then as_Menu itm else None) as [found |]; console.
    + destruct (merge (children found)). discriminate.
    + destruct (with_found_menu target merge rest). discriminate.
Qed.

Lemma register_not_nil (this : MenuManager) (menu : Menu) :
  menus (fst (register this menu)) <> [].
Proof.
  unfold register. rewrite _registerMenu_eq.
  pose proof (with_found_menu_not_nil (menu_name menu)
                (merge_children (children menu)) (_menus this)) as H.
  console. destruct (with_found_menu _ _ _). exact H.
Qed.

Lemma register_forest_not_nil (forest : list Menu) (this : MenuManager) :
  forest <> [] -> menus (fst (register_forest this forest)) <> [].
Proof.
  unfold register_forest. revert this.
  induction forest as [| m forest IH]; intros this Hne; [congruence |].
  rewrite for_of_cons. pose proof (register_not_nil this m) as Hm.
  unfold bind. destruct (register this m) as [this1 out1] eqn:E1.
  destruct forest as [| m2 forest].
  - exact Hm.
  - specialize (IH this1 ltac:(discriminate)).
    destruct (for_of register (m2 :: forest) this1). exact IH.
Qed.

(** C1, on the code: registering a forest that is not empty into the
    empty registry and unregistering it again leaves the registry as the
    registration made it, which is not the empty registry it was
    before. *)
Theorem register_unregister_not_restored (forest : list Menu) :
  forest <> [] ->
  let registered := fst (register_forest constructor forest) in
  let after := fst (unregister_forest registered forest) in
  after = registered /\ menus after <> menus constructor.
Proof.
  intros Hne registered after. subst after.
  rewrite unregister_forest_eq. split; [reflexivity |].
  apply register_forest_not_nil. assumption.
Qed.

Lemma register_unregister_not_restored_witness :
  let forest := [mkMenu "File" [inr (mkMenuItem "New" "file.new" JS.VNull)]] in
  let registered := fst (register_forest constructor forest) in
  let after := fst (unregister_forest registered forest) in
  after = registered /\ menus after <> menus constructor.
Proof.
  apply (register_unregister_not_restored
           [mkMenu "File" [inr (mkMenuItem "New" "file.new" JS.VNull)]]).
  discriminate.
Defined.

(** ** [_registerMenuItem] *)

(** C2, on the code: a menu item is discarded as soon as any sibling has
    its name, a menu included; so with a menu named like the item among
    the siblings, and no menu item of that name, the item is not
    appended. *)
Theorem register_item_rejected_by_menu_name :
  forall (before after : list MenuNode) (same_name : Menu) (new_item : MenuItem),
    menu_name same_name = item_name new_item ->
    _registerMenuItem (before ++ inl same_name :: after) new_item =
    (before ++ inl same_name :: after, ["Menu item already registered"]).
Proof.
  intros before after same_name new_item Hn.
  rewrite _registerMenuItem_eq.
  destruct (in_dec string_dec _ _) as [Hin | Hout]; [reflexivity |].
  exfalso. apply Hout. rewrite map_app. apply in_or_app. right.
  simpl. auto.
Qed.

Lemma register_item_rejected_by_menu_name_witness :
  ~ In "N" (item_names [inl (mkMenu "N" [])]) /\
  _registerMenuItem ([] ++ inl (mkMenu "N" []) :: [])
    (mkMenuItem "N" "plugin.n" JS.VNull) =
  ([] ++ inl (mkMenu "N" []) :: [], ["Menu item already registered"]).
Proof.
  split.
  - simpl. tauto.
  - apply (register_item_rejected_by_menu_name [] [] (mkMenu "N" [])
             (mkMenuItem "N" "plugin.n" JS.VNull)).
    reflexivity.
Defined.

(** ** [_registerMenu] *)



(** ** Name uniqueness per sibling list *)

Lemma NoDup_snoc {A} (l : list A) (x : A) :
  NoDup l -> ~ In x l -> NoDup (l ++ [x]).
Proof.
  induction 1 as [| y l Hy Hl IH]; intros Hx; simpl.
  - constructor; [tauto | constructor].
  - constructor.
    + rewrite in_app_iff. simpl. intros [H | [H | []]]; [tauto |].
      apply Hx. simpl. auto.
    + apply IH. intros H. apply Hx. simpl. auto.
Qed.

Lemma item_names_incl_names (l : list MenuNode) (n : string) :
  In n (item_names l) -> In n (map name l).
Proof.
  rewrite in_item_names. intros [i [Hin Hn]].
  apply in_map_iff. exists (inr i). auto.
Qed.

Lemma unique_names_nil : unique_names [].
Proof. constructor; simpl; [constructor | constructor | tauto]. Qed.

Lemma _registerMenuItem_unique (existing_menus : list MenuNode) (new_item : MenuItem) :
  unique_names existing_menus ->
  unique_names (fst (_registerMenuItem existing_menus new_item)).
Proof.
  intros Hu. rewrite _registerMenuItem_eq.
  destruct (in_dec string_dec _ _) as [Hin | Hout]; simpl; [assumption |].
  inversion Hu as [l Hm Hi Hc]; subst l. constructor.
  - rewrite menu_names_app. simpl. now rewrite app_nil_r.
  - rewrite item_names_app. simpl. apply NoDup_snoc; [assumption |].
    intros H. apply Hout. now apply item_names_incl_names.
  - intros m Hin. apply in_app_iff in Hin. destruct Hin as [Hin | [E | []]].
    + now apply Hc.
    + discriminate.
Qed.

Lemma merge_children_unique (new_children : list MenuNode) :
  (forall sub, In (inl sub) new_children ->
     forall l, unique_names l -> unique_names (fst (_registerMenu l sub))) ->
  forall found_children,
    unique_names found_children ->
    unique_names (fst (merge_children new_children found_children)).
Proof.
  unfold merge_children.
  induction new_children as [| c rest IH]; intros Hsub acc Hacc.
  - exact Hacc.
  - rewrite for_of_cons. unfold bind.
    assert (Hstep : unique_names (fst (_registerNode acc c))).
    { destruct c as [sub | item]; simpl.
      - apply Hsub; simpl; auto.
      - now apply _registerMenuItem_unique. }
    destruct (_registerNode acc c) as [acc1 out1]. simpl in Hstep.
    specialize (IH (fun sub H => Hsub sub (or_intror H)) acc1 Hstep).
    destruct (for_of _registerNode rest acc1). exact IH.
Qed.

Lemma _registerMenu_unique (new_item : Menu) :
  forall existing_menus,
    unique_names existing_menus ->
    unique_names (fst (_registerMenu existing_menus new_item)).
Proof.
  induction new_item as [n kids IH] using Menu_nested_ind.
  intros existing Hu. rewrite _registerMenu_eq. simpl menu_name. simpl children.
  pose proof (merge_children_unique kids IH) as Hmerge.
  inversion Hu as [l Hm Hi Hc]; subst l.
  destruct (in_dec string_dec n (menu_names existing)) as [Hin | Hout].
  - destruct (menu_named_split n existing Hin)
      as (before & found & after & -> & Hn & Hb).
    rewrite with_found_menu_found by assumption.
    specialize (Hmerge (children found) (Hc found ltac:(apply in_elt))).
    unfold bind. destruct (merge_children kids (children found)) as [ch out].
    simpl in *. constructor.
    + rewrite menu_names_app in *. simpl in *. now rewrite Hn in Hm.
    + rewrite item_names_app in *. exact Hi.
    + intros m Hm'. apply in_app_iff in Hm'.
      destruct Hm' as [Hm' | [E | Hm']].
      * apply Hc. apply in_app_iff. auto.
      * injection E as <-. exact Hmerge.
      * apply Hc. apply in_app_iff. simpl. auto.
  - rewrite with_found_menu_missing by assumption.
    specialize (Hmerge [] unique_names_nil).
    unfold bind. destruct (merge_children kids []) as [ch out].
    simpl in *. constructor.
    + rewrite menu_names_app. simpl. now apply NoDup_snoc.
    + rewrite item_names_app. simpl. now rewrite app_nil_r.
    + intros m Hm'. apply in_app_iff in Hm'.
      destruct Hm' as [Hm' | [E | []]].
      * now apply Hc.
      * injection E as <-. exact Hmerge.
Qed.

Lemma register_unique (this : MenuManager) (menu : Menu) :
  unique_names (menus this) ->
  unique_names (menus (fst (register this menu))).
Proof.
  intros Hu. unfold register.
  pose proof (_registerMenu_unique menu (_menus this) Hu) as H.
  unfold bind. destruct (_registerMenu (_menus this) menu). exact H.
Qed.

Lemma register_forest_unique (forest : list Menu) (this : MenuManager) :
  unique_names (menus this) ->
  unique_names (menus (fst (register_forest this forest))).
Proof.
  unfold register_forest. revert this.
  induction forest as [| m forest IH]; intros this Hu; [exact Hu |].
  rewrite for_of_cons. unfold bind.
  pose proof (register_unique this m Hu) as H1.
  destruct (register this m) as [this1 out1].
  specialize (IH this1 H1).
  destruct (for_of register forest this1). exact IH.
Qed.

(** C9: starting from the empty registry, after any sequence of
    registrations of forests, every sibling list of the registry has at
    most one menu and at most one menu item of any given name. *)
Theorem registry_names_unique_per_sibling_list :
  forall forests : list (list Menu),
    unique_names (menus (fst (for_of register_forest forests constructor))).
Proof.
  intros forests.
  assert (H : forall this, unique_names (menus this) ->
              unique_names (menus (fst (for_of register_forest forests this)))).
  { induction forests as [| F forests IH]; intros this Hu; [exact Hu |].
    rewrite for_of_cons. unfold bind.
    pose proof (register_forest_unique F this Hu) as H1.
    destruct (register_forest this F) as [this1 out1].
    specialize (IH this1 H1).
    destruct (for_of register_forest forests this1). exact IH. }
  apply H. exact unique_names_nil.
Qed.

(** ** Registering only ever adds *)

Lemma extends_refl_below (l : list MenuNode) :
  (forall sub, In (inl sub) l -> extends (children sub) (children sub)) ->
  extends l l.
Proof.
  induction l as [| [m | i] l IH]; intros Hsub; constructor;
    try (apply IH; intros sub H; apply Hsub; simpl; auto).
  - reflexivity.
  - apply Hsub. simpl. auto.
Qed.

Lemma extends_refl_children (m : Menu) : extends (children m) (children m).
Proof.
  induction m as [n kids IH] using Menu_nested_ind. simpl.
  now apply extends_refl_below.
Qed.

Lemma extends_refl (l : list MenuNode) : extends l l.
Proof. apply extends_refl_below. intros sub _. apply extends_refl_children. Qed.

Lemma extends_trans (a b c : list MenuNode) :
  extends a b -> extends b c -> extends a c.
Proof.
  intros Hab. revert c.
  induction Hab as [added | i l l' H IH | m m' l l' Hn Hch IHch H IH];
    intros c Hbc.
  - constructor.
  - inversion Hbc; subst. constructor. now apply IH.
  - inversion Hbc; subst. constructor.
    + congruence.
    + now apply IHch.
    + now apply IH.
Qed.

Lemma extends_app (l added : list MenuNode) : extends l (l ++ added).
Proof.
  induction l as [| [m | i] l IH]; simpl; constructor; auto.
  apply extends_refl.
Qed.

Lemma extends_replace (before after : list MenuNode) (found found' : Menu) :
  menu_name found = menu_name found' ->
  extends (children found) (children found') ->
  extends (before ++ inl found :: after) (before ++ inl found' :: after).
Proof.
  intros Hn Hch.
  induction before as [| [m | i] before IH]; simpl; constructor; auto;
    apply extends_refl.
Qed.

Lemma extends_names (l l' : list MenuNode) (n : string) :
  extends l l' -> In n (map name l) -> In n (map name l').
Proof.
  induction 1 as [added | i l l' H IH | m m' l l' Hn Hch _ H IH]; simpl.
  - tauto.
  - intros [E | Hin]; auto.
  - intros [E | Hin]; auto. left. congruence.
Qed.

Lemma extends_split (before after : list MenuNode) (found : Menu) :
  forall l',
    extends (before ++ inl found :: after) l' ->
    exists before' found' after',
      l' = before' ++ inl found' :: after' /\
      menu_names before' = menu_names before /\
      menu_name found' = menu_name found /\
      extends (children found) (children found').
Proof.
  induction before as [| x before IH]; simpl; intros l' H.
  - inversion H; subst. exists [], m', l'0. simpl. auto.
  - inversion H; subst.
    + destruct (IH _ H3) as (before' & found' & after' & -> & Hb & Hn & Hch).
      exists (inr i :: before'), found', after'. simpl. auto.
    + destruct (IH _ H5) as (before' & found' & after' & -> & Hb & Hn & Hch).
      exists (inl m' :: before'), found', after'. simpl.
      repeat split; auto. congruence.
Qed.

Lemma _registerMenuItem_extends (l : list MenuNode) (i : MenuItem) :
  extends l (fst (_registerMenuItem l i)).
Proof.
  rewrite _registerMenuItem_eq. destruct (in_dec string_dec _ _); simpl.
  - apply extends_refl.
  - apply extends_app.
Qed.

(** What holds of every step of a merge holds of the merge. *)
Lemma merge_children_extends (new_children : list MenuNode) :
  (forall c, In c new_children -> forall l, extends l (fst (_registerNode l c))) ->
  forall found_children,
    extends found_children (fst (merge_children new_children found_children)).
Proof.
  unfold merge_children.
  induction new_children as [| c rest IH]; intros Hstep acc.
  - apply extends_refl.
  - rewrite for_of_cons. unfold bind.
    pose proof (Hstep c (or_introl eq_refl) acc) as H1.
    destruct (_registerNode acc c) as [acc1 out1]. simpl in H1.
    specialize (IH (fun c' H => Hstep c' (or_intror H)) acc1).
    destruct (for_of _registerNode rest acc1) as [acc2 out2]. simpl in *.
    eapply extends_trans; eassumption.
Qed.

Lemma _registerMenu_extends (new_item : Menu) :
  forall l, extends l (fst (_registerMenu l new_item)).
Proof.
  induction new_item as [n kids IH] using Menu_nested_ind.
  intros existing. rewrite _registerMenu_eq. simpl menu_name. simpl children.
  assert (Hmerge : forall acc, extends acc (fst (merge_children kids acc))).
  { apply merge_children_extends. intros [sub | item] Hin l; simpl.
    - now apply IH.
    - apply _registerMenuItem_extends. }
  destruct (in_dec string_dec n (menu_names existing)) as [Hin | Hout].
  - destruct (menu_named_split n existing Hin)
      as (before & found & after & -> & Hn & Hb).
    rewrite with_found_menu_found by assumption.
    specialize (Hmerge (children found)).
    unfold bind. destruct (merge_children kids (children found)) as [ch out].
    simpl in *. now apply extends_replace.
  - rewrite with_found_menu_missing by assumption.
    unfold bind. destruct (merge_children kids []) as [ch out].
    simpl. apply extends_app.
Qed.

Lemma _registerNode_extends (c : MenuNode) (l : list MenuNode) :
  extends l (fst (_registerNode l c)).
Proof.
  destruct c as [sub | item]; simpl.
  - apply _registerMenu_extends.
  - apply _registerMenuItem_extends.
Qed.

(** ** What has been merged stays merged *)

Lemma absorbed_menu_extends (m : Menu) :
  forall l l', absorbed l (inl m) -> extends l l' -> absorbed l' (inl m).
Proof.
  induction m as [n kids IH] using Menu_nested_ind.
  intros l l' Ha He.
  inversion Ha as [| l0 m0 before found after El Hb Hn Hkids]; subst.
  destruct (extends_split _ _ _ _ He)
    as (before' & found' & after' & -> & Hb' & Hn' & Hch).
  eapply absorbed_menu; [reflexivity | | | ].
  - now rewrite Hb'.
  - congruence.
  - simpl in *. intros [sub | item] Hin.
    + eapply IH; eauto.
    + specialize (Hkids _ Hin). inversion Hkids; subst.
      constructor. eapply extends_names; eassumption.
Qed.

Lemma absorbed_extends (c : MenuNode) (l l' : list MenuNode) :
  absorbed l c -> extends l l' -> absorbed l' c.
Proof.
  destruct c as [m | i]; intros Ha He.
  - eapply absorbed_menu_extends; eassumption.
  - inversion Ha; subst. constructor. eapply extends_names; eassumption.
Qed.

Lemma merge_children_absorbs (new_children : list MenuNode) :
  (forall c, In c new_children -> forall l, absorbed (fst (_registerNode l c)) c) ->
  forall found_children c,
    In c new_children ->
    absorbed (fst (merge_children new_children found_children)) c.
Proof.
  unfold merge_children.
  induction new_children as [| c0 rest IH]; intros Hstep acc c Hin;
    [destruct Hin |].
  rewrite for_of_cons. unfold bind.
  pose proof (Hstep c0 (or_introl eq_refl) acc) as H0.
  destruct (_registerNode acc c0) as [acc1 out1]. simpl in H0.
  specialize (IH (fun c' H => Hstep c' (or_intror H)) acc1).
  pose proof (merge_children_extends rest
                (fun c' _ l => _registerNode_extends c' l) acc1) as He.
  unfold merge_children in He.
  destruct (for_of _registerNode rest acc1) as [acc2 out2]. simpl in *.
  destruct Hin as [<- | Hin].
  - eapply absorbed_extends; eassumption.
  - now apply IH.
Qed.

Lemma _registerMenuItem_absorbs (l : list MenuNode) (i : MenuItem) :
  absorbed (fst (_registerMenuItem l i)) (inr i).
Proof.
  rewrite _registerMenuItem_eq. constructor.
  destruct (in_dec string_dec _ _); simpl; [assumption |].
  rewrite map_app. apply in_or_app. right. simpl. auto.
Qed.

Lemma _registerMenu_absorbs (new_item : Menu) :
  forall l, absorbed (fst (_registerMenu l new_item)) (inl new_item).
Proof.
  induction new_item as [n kids IH] using Menu_nested_ind.
  intros existing. rewrite _registerMenu_eq. simpl menu_name. simpl children.
  assert (Hmerge : forall acc c, In c kids ->
                     absorbed (fst (merge_children kids acc)) c).
  { apply merge_children_absorbs. intros [sub | item] Hin l; simpl.
    - now apply IH.
    - apply _registerMenuItem_absorbs. }
  destruct (in_dec string_dec n (menu_names existing)) as [Hin | Hout].
  - destruct (menu_named_split n existing Hin)
      as (before & found & after & -> & Hn & Hb).
    rewrite with_found_menu_found by assumption.
    specialize (Hmerge (children found)).
    unfold bind. destruct (merge_children kids (children found)) as [ch out].
    simpl in *. eapply absorbed_menu; [reflexivity | assumption | reflexivity |].
    exact Hmerge.
  - rewrite with_found_menu_missing by assumption.
    specialize (Hmerge []).
    unfold bind. destruct (merge_children kids []) as [ch out].
    simpl in *. eapply absorbed_menu; [reflexivity | assumption | reflexivity |].
    exact Hmerge.
Qed.

Lemma _registerNode_absorbs (c : MenuNode) (l : list MenuNode) :
  absorbed (fst (_registerNode l c)) c.
Proof.
  destruct c as [sub | item]; simpl.
  - apply _registerMenu_absorbs.
  - apply _registerMenuItem_absorbs.
Qed.

(** ** Merging what is already merged *)

Lemma count_items_cons (c : MenuNode) (rest : list MenuNode) :
  count_items (c :: rest) = count_items [c] + count_items rest.
Proof.
  unfold count_items, forest_nodes. simpl. rewrite app_nil_r.
  now rewrite item_names_app, length_app.
Qed.

Lemma count_items_menu (m : Menu) :
  count_items [inl m] = count_items (children m).
Proof.
  unfold count_items, forest_nodes. simpl. rewrite app_nil_r.
  destruct m as [n kids]. reflexivity.
Qed.

Lemma merge_children_absorbed (new_children : list MenuNode) :
  (forall c, In c new_children -> forall l,
     absorbed l c -> _registerNode l c = (l, repeat conflict (count_items [c]))) ->
  forall found_children,
    (forall c, In c new_children -> absorbed found_children c) ->
    merge_children new_children found_children =
    (found_children, repeat conflict (count_items new_children)).
Proof.
  unfold merge_children.
  induction new_children as [| c rest IH]; intros Hstep acc Ha.
  - reflexivity.
  - rewrite for_of_cons, (Hstep c (or_introl eq_refl) acc)
      by (apply Ha; simpl; auto).
    unfold bind.
    rewrite (IH (fun c' H => Hstep c' (or_intror H)) acc)
      by (intros c' H; apply Ha; simpl; auto).
    now rewrite (count_items_cons c rest), repeat_app.
Qed.

Lemma _registerMenuItem_absorbed (l : list MenuNode) (i : MenuItem) :
  absorbed l (inr i) ->
  _registerMenuItem l i = (l, repeat conflict (count_items [inr i])).
Proof.
  intros Ha. inversion Ha; subst. rewrite _registerMenuItem_eq.
  destruct (in_dec string_dec _ _); [reflexivity | contradiction].
Qed.

Lemma _registerMenu_absorbed (new_item : Menu) :
  forall l,
    absorbed l (inl new_item) ->
    _registerMenu l new_item = (l, repeat conflict (count_items [inl new_item])).
Proof.
  induction new_item as [n kids IH] using Menu_nested_ind.
  intros existing Ha.
  inversion Ha as [| l0 m0 before found after El Hb Hn Hkids]; subst.
  rewrite _registerMenu_eq, count_items_menu. simpl in *.
  rewrite with_found_menu_found by assumption.
  rewrite merge_children_absorbed.
  - unfold bind, ret. rewrite app_nil_r. destruct found as [fn fkids].
    simpl in *. now subst fn.
  - intros [sub | item] Hin l Hl; simpl.
    + rewrite (IH sub Hin l Hl). reflexivity.
    + now apply _registerMenuItem_absorbed.
  - exact Hkids.
Qed.

Lemma _registerNode_absorbed (c : MenuNode) (l : list MenuNode) :
  absorbed l c -> _registerNode l c = (l, repeat conflict (count_items [c])).
Proof.
  destruct c as [sub | item]; simpl.
  - apply _registerMenu_absorbed.
  - apply _registerMenuItem_absorbed.
Qed.

Lemma merge_children_twice (new_children l : list MenuNode) :
  merge_children new_children (fst (merge_children new_children l)) =
  (fst (merge_children new_children l),
   repeat conflict (count_items new_children)).
Proof.
  apply merge_children_absorbed.
  - intros c _ l0. apply _registerNode_absorbed.
  - intros c Hin. apply merge_children_absorbs; [| assumption].
    intros c' _ l0. apply _registerNode_absorbs.
Qed.

(** [register_forest] is the merge of the forest into the top level. *)
Lemma register_forest_eq (forest : list Menu) (this : MenuManager) :
  register_forest this forest =
  (ms <- merge_children (map inl forest) (_menus this) ;;
   ret {| _menus := ms |}).
Proof.
  unfold register_forest, merge_children. revert this.
  induction forest as [| m forest IH]; intros this.
  - destruct this. reflexivity.
  - simpl map. rewrite !for_of_cons. simpl _registerNode.
    unfold register at 1. unfold bind, ret.
    destruct (_registerMenu (_menus this) m) as [ms out]. simpl.
    rewrite IH. unfold bind, ret. simpl.
    destruct (for_of _registerNode (map inl forest) ms) as [ms' out'].
    now rewrite !app_nil_r.
Qed.

(** C3: registering a forest a second time, whatever the registry held
    before the first time, returns normally and leaves the registry as
    the first registration made it: nothing is added, and each menu
    item of the forest is reported once as already registered. *)
Theorem register_twice_same_registry :
  forall (this : MenuManager) (forest : list Menu),
    let once := fst (register_forest this forest) in
    register_forest once forest =
    (once, repeat "Menu item already registered"
                  (count_items (map inl forest))).
Proof.
  intros this forest once. subst once.
  rewrite !register_forest_eq.
  pose proof (merge_children_twice (map inl forest) (_menus this)) as H.
  unfold bind, ret in *.
  destruct (merge_children (map inl forest) (_menus this)) as [ms out].
  simpl in *. rewrite H. now rewrite app_nil_r.
Qed.

(** ** Forests with no name in common *)

Lemma _registerMenu_after (prefix l : list MenuNode) (m : Menu) :
  ~ In (menu_name m) (menu_names prefix) ->
  _registerMenu (prefix ++ l) m =
  (l' <- _registerMenu l m ;; ret (prefix ++ l')).
Proof.
  intros Hp. rewrite !_registerMenu_eq. now apply with_found_menu_skip.
Qed.

Lemma merge_menus_after (prefix : list MenuNode) (forest : list Menu) :
  (forall m, In m forest -> ~ In (menu_name m) (menu_names prefix)) ->
  forall l,
    merge_children (map inl forest) (prefix ++ l) =
    (l' <- merge_children (map inl forest) l ;; ret (prefix ++ l')).
Proof.
  unfold merge_children.
  induction forest as [| m forest IH]; intros Hp l; simpl map.
  - reflexivity.
  - rewrite !for_of_cons. simpl _registerNode.
    rewrite _registerMenu_after by (apply Hp; simpl; auto).
    unfold bind, ret. destruct (_registerMenu l m) as [l1 out1].
    rewrite IH by (intros m' H; apply Hp; simpl; auto).
    unfold bind, ret.
    destruct (for_of _registerNode (map inl forest) l1) as [l2 out2].
    now rewrite !app_nil_r.
Qed.

Lemma _registerMenu_menu_names (l : list MenuNode) (m : Menu) (n : string) :
  In n (menu_names (fst (_registerMenu l m))) ->
  In n (menu_names l) \/ n = menu_name m.
Proof.
  rewrite _registerMenu_eq.
  destruct (in_dec string_dec (menu_name m) (menu_names l)) as [Hin | Hout].
  - destruct (menu_named_split _ l Hin)
      as (before & found & after & -> & Hn & Hb).
    rewrite with_found_menu_found by assumption.
    unfold bind. destruct (merge_children _ _) as [ch out]. simpl.
    rewrite !menu_names_app. simpl. rewrite Hn. auto.
  - rewrite with_found_menu_missing by assumption.
    unfold bind. destruct (merge_children _ _) as [ch out]. simpl.
    rewrite menu_names_app, in_app_iff. simpl. intuition.
Qed.

Lemma merge_menus_menu_names (forest : list Menu) (n : string) :
  forall l,
    In n (menu_names (fst (merge_children (map inl forest) l))) ->
    In n (menu_names l) \/ In n (map menu_name forest).
Proof.
  unfold merge_children.
  induction forest as [| m forest IH]; intros l; simpl map.
  - simpl. auto.
  - rewrite for_of_cons. simpl _registerNode. unfold bind.
    pose proof (_registerMenu_menu_names l m n) as H1.
    destruct (_registerMenu l m) as [l1 out1]. simpl in H1.
    specialize (IH l1).
    destruct (for_of _registerNode (map inl forest) l1) as [l2 out2].
    simpl in *. intros H. destruct (IH H) as [H' | H']; [| auto].
    destruct (H1 H'); auto.
Qed.

Lemma menu_name_in_all_names (forest : list Menu) (n : string) :
  In n (map menu_name forest) -> In n (all_names (map inl forest)).
Proof.
  intros H. apply in_map_iff in H. destruct H as [m [Hn Hin]].
  unfold all_names. apply in_map_iff. exists (inl m). split; [assumption |].
  unfold forest_nodes. apply in_flat_map. exists (inl m). split.
  - now apply in_map.
  - destruct m. simpl. auto.
Qed.

Lemma register_forest_after (A B : list Menu) :
  (forall n, In n (map menu_name A) -> ~ In n (map menu_name B)) ->
  menus (fst (register_forest (fst (register_forest constructor A)) B)) =
  menus (fst (register_forest constructor A)) ++
  menus (fst (register_forest constructor B)).
Proof.
  intros Hd. rewrite !register_forest_eq. simpl _menus.
  pose proof (fun n => merge_menus_menu_names A n []) as Hnames.
  unfold bind, ret in *.
  destruct (merge_children (map inl A) []) as [a outa]. simpl in *.
  rewrite <- (app_nil_r a) at 1.
  rewrite merge_menus_after.
  - unfold bind, ret.
    now destruct (merge_children (map inl B) []) as [b outb].
  - intros m Hm Hin.
    destruct (Hnames _ Hin) as [[] | HA].
    apply (Hd _ HA). now apply in_map.
Qed.

(** C8: for two forests that share no name at any depth, registering
    A then B into the empty registry and registering B then A give the
    same final trees: the same top-level menus, each with the same
    subtree, so that the one registry is a permutation of the other.
    New menus are appended in arrival order: A then B is the menus of A
    alone followed by those of B alone, B then A those of B followed by
    those of A. *)
Theorem register_disjoint_forests_permuted :
  forall A B : list Menu,
    share_no_names A B ->
    let a := menus (fst (register_forest constructor A)) in
    let b := menus (fst (register_forest constructor B)) in
    let ab := menus (fst (register_forest (fst (register_forest constructor A)) B)) in
    let ba := menus (fst (register_forest (fst (register_forest constructor B)) A)) in
    ab = a ++ b /\ ba = b ++ a /\ Permutation ab ba.
Proof.
  intros A B Hd a b ab ba.
  assert (Hab : ab = a ++ b).
  { apply register_forest_after. intros n HA HB.
    apply (Hd n); now apply menu_name_in_all_names. }
  assert (Hba : ba = b ++ a).
  { apply register_forest_after. intros n HB HA.
    apply (Hd n); now apply menu_name_in_all_names. }
  repeat split; try assumption.
  rewrite Hab, Hba. apply Permutation_app_comm.
Qed.

Lemma register_disjoint_forests_permuted_witness :
  let A := [mkMenu "File" [inr (mkMenuItem "New" "file.new" JS.VNull)]] in
  let B := [mkMenu "Edit" [inr (mkMenuItem "Undo" "edit.undo" JS.VNull)]] in
  menus (fst (register_forest (fst (register_forest constructor A)) B)) =
  map inl A ++ map inl B /\
  menus (fst (register_forest (fst (register_forest constructor B)) A)) =
  map inl B ++ map inl A.
Proof.
  intros A B.
  destruct (register_disjoint_forests_permuted A B) as (Hab & Hba & _).
  - intros n. simpl. intuition (subst; discriminate).
  - split; [exact Hab | exact Hba].
Defined.

(** The order of the top level does follow the order of registration:
    File then Edit and Edit then File are not the same list. *)
Lemma register_disjoint_forests_order_matters :
  ~ (forall A B : list Menu,
       share_no_names A B ->
       menus (fst (register_forest (fst (register_forest constructor A)) B)) =
       menus (fst (register_forest (fst (register_forest constructor B)) A))).
Proof.
  intros H.
  specialize (H [mkMenu "File" []] [mkMenu "Edit" []]).
  assert (Hd : share_no_names [mkMenu "File" []] [mkMenu "Edit" []]).
  { intros n. simpl. intuition (subst; discriminate). }
  specialize (H Hd). discriminate H.
Qed.

End Registry.

(** * Properties of the menu parser *)
Module Parser.
Import JS MenuParser.

(** ** Objects and strings *)

Lemma with_own_property_truthy {R} key (present : value -> R) absent props v :
  get_own props key = v -> truthy v = true ->
  with_own_property key present absent props = present v.
Proof.
  intros Hget Ht. induction props as [| [k v0] rest IH]; simpl in *.
  - subst v. discriminate.
  - destruct (String.eqb k key); [now subst | auto].
Qed.

Lemma with_own_property_falsy {R} key (present : value -> R) absent props :
  truthy (get_own props key) = false ->
  (forall v, truthy v = false -> present v = absent) ->
  with_own_property key present absent props = absent.
Proof.
  intros Hf Hp. induction props as [| [k v0] rest IH]; simpl in *.
  - reflexivity.
  - destruct (String.eqb k key); auto.
Qed.

Lemma set_own_same props key v :
  get_own props key = v -> truthy v = true -> set_own props key v = props.
Proof.
  intros Hget Ht. induction props as [| [k v0] rest IH]; simpl in *.
  - subst v. discriminate.
  - destruct (String.eqb k key); [now subst |]. now rewrite IH.
Qed.

Lemma get_own_set_own props key v :
  get_own (set_own props key v) key = v.
Proof.
  induction props as [| [k v0] rest IH]; simpl.
  - now rewrite String.eqb_refl.
  - destruct (String.eqb k key) eqn:E; simpl; now rewrite E.
Qed.

Lemma get_own_set_own_other props key key' v :
  key' <> key ->
  get_own (set_own props key v) key' = get_own props key'.
Proof.
  intros Hne. induction props as [| [k v0] rest IH]; simpl.
  - destruct (String.eqb_spec key key'); [congruence | reflexivity].
  - destruct (String.eqb_spec k key) as [-> | Hk]; simpl.
    + destruct (String.eqb_spec key key'); [congruence | reflexivity].
    + now rewrite IH.
Qed.

Lemma remove_white_space_empty (s : string) :
  String.eqb (remove_white_space s) "" = blank s.
Proof.
  induction s as [| c rest IH]; simpl; [reflexivity |].
  destruct (is_white_space c); simpl; auto.
Qed.

Lemma isEmpty_string (s : string) : isEmpty (VStr s) = Ok (negb (blank s)).
Proof.
  unfold isEmpty. destruct s as [| c rest]; [reflexivity |].
  cbn [truthy String.eqb negb]. now rewrite remove_white_space_empty.
Qed.

(** ** The traversal *)

Lemma _menuForEach_array {St} onMenu onMenuItem (elems : list value) (s : St) :
  _menuForEach onMenu onMenuItem (VArr elems) s =
  ('(elems', s', r) <- for_of (visit_node onMenu onMenuItem) elems s ;;
   Ok (VArr elems', s', r)).
Proof. reflexivity. Qed.

Lemma visit_node_menu {St} onMenu onMenuItem props kids (s : St) :
  get_own props "children" = VArr kids ->
  visit_node onMenu onMenuItem (VObj props) s =
  ('(s1, r) <- onMenu (VObj props) s ;;
   if is_false r then Ok (VObj props, s1, false)
   else
     '(children', s2, r) <- _menuForEach onMenu onMenuItem (VArr kids) s1 ;;
     Ok (VObj (set_own props "children" children'), s2, r)).
Proof.
  intros Hch. unfold visit_node.
  now rewrite (with_own_property_truthy _ _ _ _ _ Hch eq_refl).
Qed.

Lemma visit_node_item {St} onMenu onMenuItem props (s : St) :
  truthy (get_own props "children") = false ->
  visit_node onMenu onMenuItem (VObj props) s =
  visit_item onMenuItem (VObj props) s.
Proof.
  intros Hch. unfold visit_node.
  apply with_own_property_falsy; [assumption |].
  intros v Hv. now rewrite Hv.
Qed.

(** ** The first pass: validation *)

Lemma first_violation_app (a b : list MenuNode) :
  first_violation (a ++ b) =
  match first_violation a with
  | Some msg => Some msg
  | None => first_violation b
  end.
Proof.
  induction a as [| n a IH]; simpl; [reflexivity |].
  destruct (rule_violated n); auto.
Qed.

Lemma menu_nodes_eq (m : Menu) :
  menu_nodes m = inl m :: forest_nodes (children m).
Proof. destruct m. reflexivity. Qed.

Lemma verdict_app (s : string) (a b : list MenuNode) :
  verdict s (a ++ b) =
  match first_violation a with
  | Some msg => (msg, false)
  | None => verdict s b
  end.
Proof.
  unfold verdict. rewrite first_violation_app.
  now destruct (first_violation a).
Qed.

Local Notation "'validate'" := (visit_node check_menu check_menu_item).
Local Notation "'validated' v s nodes" :=
  (Ok (v, fst (verdict s nodes), snd (verdict s nodes)))
  (at level 10, v at level 9, s at level 9, nodes at level 9).

Lemma check_menu_eq props (s : string) (n : string) :
  get_own props "name" = VStr n ->
  check_menu (VObj props) s =
  if blank n then Ok ("Menus must be named", Some false) else Ok (s, Some true).
Proof.
  intros Hn. unfold check_menu. cbn [get JS.bind]. rewrite Hn, isEmpty_string.
  cbn [JS.bind]. now destruct (blank n).
Qed.

Lemma check_menu_item_eq props (s : string) (n c : string) :
  get_own props "name" = VStr n ->
  get_own props "command" = VStr c ->
  check_menu_item (VObj props) s =
  if blank n then Ok (VObj props, "Menu items must be named", Some false)
  else if blank c then Ok (VObj props, "Menu items must have a command", Some false)
  else Ok (VObj props, s, Some true).
Proof.
  intros Hn Hc. unfold check_menu_item. cbn [get JS.bind].
  rewrite Hn, isEmpty_string. cbn [JS.bind].
  destruct (blank n); [reflexivity |]. cbn [negb].
  rewrite Hc, isEmpty_string. cbn [JS.bind]. now destruct (blank c).
Qed.

Lemma validate_item (v : value) (i : MenuItem) (s : string) :
  represents v (inr i) ->
  validate v s = validated v s [inr i].
Proof.
  intros Hr. inversion Hr as [| props i0 Hn Hc Hch Hp]; subst.
  rewrite visit_node_item by assumption.
  unfold visit_item, verdict. rewrite (check_menu_item_eq _ _ _ _ Hn Hc).
  cbn [first_violation rule_violated].
  destruct (blank (item_name i)); [reflexivity |].
  destruct (blank (command i)); reflexivity.
Qed.

Lemma validate_list (kids : list value) (ch : list MenuNode) :
  Forall2 represents kids ch ->
  (forall sub, In (inl sub) ch -> forall v s,
     represents v (inl sub) -> validate v s = validated v s (menu_nodes sub)) ->
  forall s,
    for_of validate kids s =
    Ok (kids, fst (verdict s (forest_nodes ch)), snd (verdict s (forest_nodes ch))).
Proof.
  induction 1 as [| v n kids ch Hv Hrest IH]; intros Hsub s.
  - reflexivity.
  - assert (Hhead : validate v s = validated v s (node_nodes n)).
    { destruct n as [sub | i].
      - apply Hsub; simpl; auto.
      - now apply validate_item. }
    cbn [for_of]. rewrite Hhead. cbn [JS.bind].
    change (forest_nodes (n :: ch)) with (node_nodes n ++ forest_nodes ch).
    rewrite verdict_app. unfold verdict in *.
    destruct (first_violation (node_nodes n)) as [msg |]; cbn [fst snd].
    + reflexivity.
    + rewrite IH by (intros sub H; apply Hsub; simpl; auto).
      reflexivity.
Qed.

Lemma validate_menu (m : Menu) :
  forall v s, represents v (inl m) -> validate v s = validated v s (menu_nodes m).
Proof.
  induction m as [n ch IH] using Menu_nested_ind.
  intros v s Hr. inversion Hr as [props m0 kids Hn Hc Hkids |]; subst.
  cbn [menu_name children] in Hn, Hkids.
  rewrite (visit_node_menu _ _ _ _ _ Hc), menu_nodes_eq.
  rewrite (check_menu_eq _ _ _ Hn). unfold verdict.
  cbn [first_violation rule_violated menu_name].
  destruct (blank n); [reflexivity |]. cbn [JS.bind is_false].
  rewrite _menuForEach_array, (validate_list kids ch Hkids IH).
  cbn [JS.bind children]. rewrite (set_own_same _ _ _ Hc eq_refl).
  unfold verdict. destruct (first_violation (forest_nodes ch)); reflexivity.
Qed.

Lemma validate_forest (v : value) (forest : list MenuNode) :
  represents_forest v forest ->
  _getError v =
  match first_violation (forest_nodes forest) with
  | Some msg => Ok (inr msg)
  | None => Ok (inl false)
  end.
Proof.
  intros [elems [-> Hr]]. unfold _getError.
  rewrite _menuForEach_array, (validate_list elems forest Hr).
  - unfold verdict. simpl.
    destruct (first_violation (forest_nodes forest)); reflexivity.
  - intros sub _. apply validate_menu.
Qed.

Lemma rule_violated_invalid (n : MenuNode) :
  invalid_node n = match rule_violated n with Some _ => true | None => false end.
Proof.
  destruct n as [m | i]; unfold invalid_node; simpl.
  - rewrite orb_false_r. now destruct (blank (menu_name m)).
  - destruct (blank (item_name i)); [reflexivity |].
    now destruct (blank (command i)).
Qed.

Lemma rule_violated_truthy (n : MenuNode) (msg : string) :
  rule_violated n = Some msg -> truthy (VStr msg) = true.
Proof.
  destruct n as [m | i]; simpl.
  - destruct (blank (menu_name m)); [| discriminate].
    now intros [= <-].
  - destruct (blank (item_name i)); [now intros [= <-] |].
    destruct (blank (command i)); [now intros [= <-] | discriminate].
Qed.

Lemma first_violation_none (nodes : list MenuNode) :
  existsb invalid_node nodes = false <-> first_violation nodes = None.
Proof.
  induction nodes as [| n nodes IH]; simpl; [tauto |].
  rewrite rule_violated_invalid. destruct (rule_violated n); simpl.
  - split; discriminate.
  - exact IH.
Qed.

(** The rule reported is the one broken by the first invalid node. *)
Lemma first_violation_first (nodes : list MenuNode) (msg : string) :
  first_violation nodes = Some msg ->
  exists before n after,
    nodes = before ++ n :: after /\
    existsb invalid_node before = false /\
    invalid_node n = true /\
    rule_violated n = Some msg.
Proof.
  induction nodes as [| n nodes IH]; simpl; [discriminate |].
  destruct (rule_violated n) as [msg0 |] eqn:E.
  - intros [= ->]. exists [], n, nodes.
    rewrite rule_violated_invalid, E. auto.
  - intros H. destruct (IH H) as (before & n' & after & -> & Hb & Hn & Hr).
    exists (n :: before), n', after. simpl.
    rewrite (rule_violated_invalid n), E. auto.
Qed.

Section ParseFacts.
Variable JSON_parse : string -> option value.

(** C6: when the content deserializes to a forest of menus and menu
    items of which some node has a blank name, or some menu item a
    blank command, [parse] throws the schema error whose message is
    the rule broken by the first such node, depth first and left to
    right. *)
Theorem parse_reports_first_violation :
  forall (content : string) (pluginInfo : PluginInfo)
         (v : value) (forest : list MenuNode),
    JSON_parse content = Some v ->
    represents_forest v forest ->
    existsb invalid_node (forest_nodes forest) = true ->
    exists before n after msg,
      forest_nodes forest = before ++ n :: after /\
      existsb invalid_node before = false /\
      invalid_node n = true /\
      rule_violated n = Some msg /\
      parse JSON_parse content pluginInfo = Throw (SchemaError msg).
Proof.
  intros content pluginInfo v forest Hparse Hr Hinv.
  destruct (first_violation (forest_nodes forest)) as [msg |] eqn:E.
  - destruct (first_violation_first _ _ E)
      as (before & n & after & Hsplit & Hb & Hn & Hrule).
    exists before, n, after, msg. repeat split; try assumption.
    unfold parse. rewrite Hparse. cbn [JS.bind].
    rewrite (validate_forest _ _ Hr), E. cbn [JS.bind truthy_error error_text].
    now rewrite (rule_violated_truthy _ _ Hrule).
  - apply first_violation_none in E. congruence.
Qed.
End ParseFacts.

Lemma parse_reports_first_violation_witness :
  let new := VObj [("name", VStr "New"); ("command", VStr "file.new")] in
  let gap := VObj [("name", VStr "  "); ("command", VStr "")] in
  let v := VArr [VObj [("name", VStr "File"); ("children", VArr [new; gap])]] in
  let forest :=
    [inl (mkMenu "File" [inr (mkMenuItem "New" "file.new" VUndefined);
                         inr (mkMenuItem "  " "" VUndefined)])] in
  exists before n after msg,
    forest_nodes forest = before ++ n :: after /\
    existsb invalid_node before = false /\
    invalid_node n = true /\
    rule_violated n = Some msg /\
    parse (fun _ => Some v) "content" VNull = Throw (SchemaError msg).
Proof.
  intros new gap v forest.
  apply (parse_reports_first_violation (fun _ => Some v) "content" VNull v forest).
  - reflexivity.
  - exists [VObj [("name", VStr "File"); ("children", VArr [new; gap])]].
    split; [reflexivity |].
    repeat first [ apply Forall2_cons | apply Forall2_nil
                 | eapply represents_menu; [reflexivity | reflexivity |]
                 | eapply represents_item; reflexivity ].
  - reflexivity.
Defined.

(** ** The second pass: linking the plugin *)

Section LinkPlugin.
Variable pluginInfo : PluginInfo.

Local Notation "'link'" := (visit_node skip_menu (link_plugin pluginInfo)).

Lemma link_item (v : value) (i : MenuItem) :
  represents v (inr i) ->
  exists v',
    link v tt = Ok (v', tt, true) /\
    represents v' (node_with_plugin pluginInfo (inr i)).
Proof.
  intros Hr. inversion Hr as [| props i0 Hn Hc Hch Hp]; subst.
  rewrite visit_node_item by assumption.
  exists (VObj (set_own props "plugin" pluginInfo)). split; [reflexivity |].
  apply represents_item; cbn [item_name command plugin].
  - rewrite get_own_set_own_other by discriminate. assumption.
  - rewrite get_own_set_own_other by discriminate. assumption.
  - rewrite get_own_set_own_other by discriminate. assumption.
  - apply get_own_set_own.
Qed.

Lemma link_list (kids : list value) (ch : list MenuNode) :
  Forall2 represents kids ch ->
  (forall sub, In (inl sub) ch -> forall v,
     represents v (inl sub) ->
     exists v', link v tt = Ok (v', tt, true) /\
                represents v' (node_with_plugin pluginInfo (inl sub))) ->
  exists kids',
    for_of link kids tt = Ok (kids', tt, true) /\
    Forall2 represents kids' (map (node_with_plugin pluginInfo) ch).
Proof.
  induction 1 as [| v n kids ch Hv Hrest IH]; intros Hsub.
  - exists []. split; [reflexivity | constructor].
  - assert (Hhead : exists v', link v tt = Ok (v', tt, true) /\
                      represents v' (node_with_plugin pluginInfo n)).
    { destruct n as [sub | i].
      - apply Hsub; simpl; auto.
      - now apply link_item. }
    destruct Hhead as [v' [Hlink Hv']].
    destruct (IH (fun sub H => Hsub sub (or_intror H))) as [kids' [Hfor Hkids']].
    exists (v' :: kids'). split.
    + cbn [for_of]. rewrite Hlink. cbn [JS.bind]. rewrite Hfor. reflexivity.
    + simpl. now constructor.
Qed.

Lemma link_menu (m : Menu) :
  forall v,
    represents v (inl m) ->
    exists v',
      link v tt = Ok (v', tt, true) /\
      represents v' (node_with_plugin pluginInfo (inl m)).
Proof.
  induction m as [n ch IH] using Menu_nested_ind.
  intros v Hr. inversion Hr as [props m0 kids Hn Hc Hkids |]; subst.
  cbn [menu_name children] in Hn, Hkids.
  destruct (link_list kids ch Hkids IH) as [kids' [Hfor Hkids']].
  exists (VObj (set_own props "children" (VArr kids'))). split.
  - rewrite (visit_node_menu _ _ _ _ _ Hc).
    change (skip_menu (VObj props) tt) with (@Ok (unit * callback_result) (tt, None)).
    cbn [JS.bind is_false]. rewrite _menuForEach_array, Hfor. reflexivity.
  - eapply represents_menu.
    + rewrite get_own_set_own_other by discriminate. exact Hn.
    + apply get_own_set_own.
    + exact Hkids'.
Qed.

Lemma link_forest (v : value) (forest : list MenuNode) :
  represents_forest v forest ->
  exists v',
    _menuForEach skip_menu (link_plugin pluginInfo) v tt = Ok (v', tt, true) /\
    represents_forest v' (map (node_with_plugin pluginInfo) forest).
Proof.
  intros [elems [-> Hr]].
  destruct (link_list elems forest Hr (fun sub _ => link_menu sub))
    as [elems' [Hfor Helems']].
  exists (VArr elems'). split.
  - rewrite _menuForEach_array, Hfor. reflexivity.
  - exists elems'. auto.
Qed.

Lemma menu_with_plugin_linked (m : Menu) :
  Forall (plugin_is pluginInfo) (menu_nodes (menu_with_plugin pluginInfo m)).
Proof.
  induction m as [n ch IH] using Menu_nested_ind.
  rewrite menu_nodes_eq. constructor; [exact I |].
  cbn [menu_with_plugin children menu_name].
  fold (node_with_plugin pluginInfo).
  induction ch as [| c ch IHch]; [constructor |].
  change (Forall (plugin_is pluginInfo)
            (node_nodes (node_with_plugin pluginInfo c) ++
             forest_nodes (map (node_with_plugin pluginInfo) ch))).
  apply Forall_app. split.
  - destruct c as [sub | i]; simpl.
    + apply IH. simpl. auto.
    + constructor; [reflexivity | constructor].
  - apply IHch. intros sub H. apply IH. simpl. auto.
Qed.

Lemma forest_with_plugin_linked (forest : list MenuNode) :
  Forall (plugin_is pluginInfo)
         (forest_nodes (map (node_with_plugin pluginInfo) forest)).
Proof.
  induction forest as [| c forest IH]; [constructor |].
  change (Forall (plugin_is pluginInfo)
            (node_nodes (node_with_plugin pluginInfo c) ++
             forest_nodes (map (node_with_plugin pluginInfo) forest))).
  apply Forall_app. split; [| exact IH].
  destruct c as [sub | i]; simpl.
  - apply menu_with_plugin_linked.
  - constructor; [reflexivity | constructor].
Qed.
End LinkPlugin.

Section ParseLinks.
Variable JSON_parse : string -> option value.

(** C7: when the content deserializes to a forest of menus and menu
    items in which no name and no command is blank, [parse] returns,
    and what it returns is that forest with [pluginInfo] as the plugin
    of every menu item, at every depth. *)
Theorem parse_links_every_item :
  forall (content : string) (pluginInfo : PluginInfo)
         (v : value) (forest : list MenuNode),
    JSON_parse content = Some v ->
    represents_forest v forest ->
    existsb invalid_node (forest_nodes forest) = false ->
    exists v',
      parse JSON_parse content pluginInfo = Ok v' /\
      represents_forest v' (map (node_with_plugin pluginInfo) forest) /\
      Forall (plugin_is pluginInfo)
             (forest_nodes (map (node_with_plugin pluginInfo) forest)).
Proof.
  intros content pluginInfo v forest Hparse Hr Hvalid.
  apply first_violation_none in Hvalid.
  destruct (link_forest pluginInfo v forest Hr) as [v' [Hlink Hv']].
  exists v'. repeat split.
  - unfold parse. rewrite Hparse. cbn [JS.bind].
    rewrite (validate_forest _ _ Hr), Hvalid.
    cbn [JS.bind truthy_error]. rewrite Hlink. reflexivity.
  - exact Hv'.
  - apply forest_with_plugin_linked.
Qed.

(** C5, on the code: content that deserializes to something that is
    neither an array nor a string makes [parse] throw a [TypeError],
    which is neither of the two errors [parse] throws itself. *)
Theorem parse_not_iterable :
  forall (content : string) (pluginInfo : PluginInfo) (v : value),
    JSON_parse content = Some v ->
    match v with VArr _ | VStr _ => False | _ => True end ->
    parse JSON_parse content pluginInfo = Throw TypeError /\
    TypeError <> FormatError /\
    forall msg, TypeError <> SchemaError msg.
Proof.
  intros content pluginInfo v Hparse Hv.
  repeat split; try discriminate.
  unfold parse. rewrite Hparse.
  destruct v; try contradiction; reflexivity.
Qed.
End ParseLinks.

Lemma parse_links_every_item_witness :
  let plugin := VStr "file-operations" in
  let new := VObj [("name", VStr "New"); ("command", VStr "file.new")] in
  let sub := VObj [("name", VStr "Recent"); ("children", VArr [new])] in
  let v := VArr [VObj [("name", VStr "File"); ("children", VArr [new; sub])]] in
  let item := inr (mkMenuItem "New" "file.new" VUndefined) in
  let forest := [inl (mkMenu "File" [item; inl (mkMenu "Recent" [item])])] in
  exists v',
    parse (fun _ => Some v) "content" plugin = Ok v' /\
    represents_forest v' (map (node_with_plugin plugin) forest) /\
    Forall (plugin_is plugin) (forest_nodes (map (node_with_plugin plugin) forest)).
Proof.
  intros plugin new sub v item forest.
  apply (parse_links_every_item (fun _ => Some v) "content" plugin v forest).
  - reflexivity.
  - exists [VObj [("name", VStr "File"); ("children", VArr [new; sub])]].
    split; [reflexivity |].
    repeat first [ apply Forall2_cons | apply Forall2_nil
                 | eapply represents_menu; [reflexivity | reflexivity |]
                 | eapply represents_item; reflexivity ].
  - reflexivity.
Defined.

Lemma parse_not_iterable_witness :
  parse (fun _ => Some VNull) "null" VNull = Throw TypeError /\
  TypeError <> FormatError /\
  forall msg, TypeError <> SchemaError msg.
Proof.
  apply (parse_not_iterable (fun _ => Some VNull) "null" VNull VNull).
  - reflexivity.
  - exact I.
Defined.

(** What [parse] does with other content, for the record: text that
    [JSON.parse] rejects is the format error; a menu item without a
    command is a schema error; the empty string is accepted as it is. *)
Lemma parse_malformed (JSON_parse : string -> option value)
  (content : string) (pluginInfo : PluginInfo) :
  JSON_parse content = None ->
  parse JSON_parse content pluginInfo = Throw FormatError.
Proof. intros H. unfold parse. now rewrite H. Qed.

Lemma parse_item_without_command (content : string) (pluginInfo : PluginInfo) :
  parse (fun _ => Some (VArr [VObj [("name", VStr "New")]])) content pluginInfo =
  Throw (SchemaError "Menu items must have a command").
Proof. reflexivity. Qed.

Lemma parse_empty_string (content : string) (pluginInfo : PluginInfo) :
  parse (fun _ => Some (VStr "")) content pluginInfo = Ok (VStr "").
Proof. reflexivity. Qed.

End Parser.


(** * More on the menu registry *)
Module RegistryMore.
Import MenuManager Registry.

(** ** What registering keeps *)

Lemma extends_names_prefix (l l' : list MenuNode) :
  extends l l' -> exists added, map name l' = map name l ++ added.
Proof.
  induction 1 as [added | i l l' H [added IH] | m m' l l' Hn _ _ H [added IH]].
  - exists (map name added). reflexivity.
  - exists added. simpl. now rewrite IH.
  - exists added. simpl. now rewrite IH, Hn.
Qed.

Lemma register_forest_extends (forest : list Menu) (this : MenuManager) :
  extends (menus this) (menus (fst (register_forest this forest))).
Proof.
  rewrite register_forest_eq.
  pose proof (merge_children_extends (map inl forest)
                (fun c _ l => _registerNode_extends c l) (_menus this)) as H.
  unfold bind, ret.
  destruct (merge_children (map inl forest) (_menus this)) as [ms out].
  exact H.
Qed.

(** X1: registering a forest only adds to the registry: every node
    that was there keeps its position, its kind and its name, a menu
    item stays as it was, a menu gets nodes at the end of its children
    at most; so the names of the top level before are a prefix of the
    names after. *)
Theorem register_forest_only_adds :
  forall (this : MenuManager) (forest : list Menu),
    let after := menus (fst (register_forest this forest)) in
    extends (menus this) after /\
    exists added, map name after = map name (menus this) ++ added.
Proof.
  intros this forest after. subst after.
  pose proof (register_forest_extends forest this) as H.
  split; [exact H |]. now apply extends_names_prefix.
Qed.

Lemma _registerMenu_item_names (l : list MenuNode) (m : Menu) :
  item_names (fst (_registerMenu l m)) = item_names l.
Proof.
  rewrite _registerMenu_eq.
  destruct (in_dec string_dec (menu_name m) (menu_names l)) as [Hin | Hout].
  - destruct (menu_named_split _ l Hin)
      as (before & found & after & -> & Hn & Hb).
    rewrite with_found_menu_found by assumption.
    unfold bind. destruct (merge_children _ _) as [ch out]. simpl.
    now rewrite !item_names_app.
  - rewrite with_found_menu_missing by assumption.
    unfold bind. destruct (merge_children _ _) as [ch out]. simpl.
    rewrite item_names_app. simpl. now rewrite app_nil_r.
Qed.

Lemma register_forest_item_names (forest : list Menu) (this : MenuManager) :
  item_names (menus (fst (register_forest this forest))) = item_names (menus this).
Proof.
  unfold register_forest. revert this.
  induction forest as [| m forest IH]; intros this; [reflexivity |].
  rewrite for_of_cons. unfold bind.
  pose proof (_registerMenu_item_names (_menus this) m) as H1.
  unfold register at 1. unfold bind, ret.
  destruct (_registerMenu (_menus this) m) as [ms out]. simpl in H1.
  specialize (IH {| _menus := ms |}).
  destruct (for_of register forest {| _menus := ms |}) as [this2 out2].
  unfold menus in *. simpl in *. congruence.
Qed.

Lemma no_item_names_all_menus (l : list MenuNode) :
  item_names l = [] -> forallb _isMenu l = true.
Proof.
  induction l as [| [m | i] l IH]; simpl; auto. discriminate.
Qed.

(** X2: [register] never puts a menu item at the top level: the menu
    items of the top level are the same before and after, and a
    registry that started empty has only menus there, whatever was
    registered. *)
Theorem register_top_level_menus_only :
  (forall (this : MenuManager) (forest : list Menu),
      item_names (menus (fst (register_forest this forest))) =
      item_names (menus this)) /\
  (forall forests : list (list Menu),
      forallb _isMenu (menus (fst (for_of register_forest forests constructor)))
      = true).
Proof.
  split; [intros; apply register_forest_item_names |].
  intros forests. apply no_item_names_all_menus.
  assert (H : forall this,
             item_names (menus (fst (for_of register_forest forests this))) =
             item_names (menus this)).
  { induction forests as [| F forests IH]; intros this; [reflexivity |].
    rewrite for_of_cons. unfold bind.
    pose proof (register_forest_item_names F this) as H1.
    destruct (register_forest this F) as [this1 out1]. simpl in H1.
    specialize (IH this1).
    destruct (for_of register_forest forests this1).
    unfold menus in *. simpl in *. congruence. }
  now rewrite H.
Qed.

(** ** Every menu item is added or reported *)

Lemma count_items_app (a b : list MenuNode) :
  count_items (a ++ b) = count_items a + count_items b.
Proof.
  unfold count_items, forest_nodes.
  now rewrite flat_map_app, item_names_app, length_app.
Qed.

Lemma count_items_replace (before after : list MenuNode) (m m' : Menu) :
  count_items (before ++ inl m' :: after) + count_items (children m) =
  count_items (before ++ inl m :: after) + count_items (children m').
Proof.
  rewrite !count_items_app, (count_items_cons (inl m')), (count_items_cons (inl m)).
  rewrite !count_items_menu.
  lia.
Qed.

Local Notation "'accounted' l c r" :=
  (count_items (fst r) + List.length (snd r) = count_items l + count_items c /\
   Forall (eq conflict) (snd r))
  (at level 10, l at level 9, c at level 9, r at level 9).

Lemma _registerMenuItem_accounted (l : list MenuNode) (i : MenuItem) :
  accounted l [inr i] (_registerMenuItem l i).
Proof.
  rewrite _registerMenuItem_eq. destruct (in_dec string_dec _ _); simpl.
  - split; [unfold count_items at 3; simpl; lia | repeat constructor].
  - rewrite count_items_app. split; [lia | constructor].
Qed.

Lemma merge_children_accounted (new_children : list MenuNode) :
  (forall c, In c new_children -> forall l, accounted l [c] (_registerNode l c)) ->
  forall found_children,
    accounted found_children new_children
              (merge_children new_children found_children).
Proof.
  unfold merge_children.
  induction new_children as [| c rest IH]; intros Hstep acc.
  - simpl. split; [unfold count_items at 3; simpl; lia | constructor].
  - rewrite for_of_cons. unfold bind.
    destruct (Hstep c (or_introl eq_refl) acc) as [H1 F1].
    destruct (_registerNode acc c) as [acc1 out1]. simpl in H1, F1.
    destruct (IH (fun c' H => Hstep c' (or_intror H)) acc1) as [H2 F2].
    destruct (for_of _registerNode rest acc1) as [acc2 out2]. simpl in *.
    split; [| now apply Forall_app].
    rewrite length_app, (count_items_cons c rest). lia.
Qed.

Lemma _registerMenu_accounted (m : Menu) :
  forall l, accounted l [inl m] (_registerMenu l m).
Proof.
  induction m as [n kids IH] using Menu_nested_ind.
  intros existing. rewrite _registerMenu_eq, count_items_menu.
  simpl menu_name. simpl children.
  assert (Hmerge : forall acc, accounted acc kids (merge_children kids acc)).
  { apply merge_children_accounted. intros [sub | item] Hin l; simpl.
    - now apply IH.
    - apply _registerMenuItem_accounted. }
  destruct (in_dec string_dec n (menu_names existing)) as [Hin | Hout].
  - destruct (menu_named_split n existing Hin)
      as (before & found & after & -> & Hn & Hb).
    rewrite with_found_menu_found by assumption.
    destruct (Hmerge (children found)) as [H F].
    unfold bind. destruct (merge_children kids (children found)) as [ch out].
    simpl in *. rewrite app_nil_r. split; [| assumption].
    pose proof (count_items_replace before after found (mkMenu n ch)) as Hr.
    simpl in Hr. unfold MenuNode in *. lia.
  - rewrite with_found_menu_missing by assumption.
    destruct (Hmerge []) as [H F].
    unfold bind. destruct (merge_children kids []) as [ch out].
    simpl in *. rewrite app_nil_r. split; [| assumption].
    rewrite count_items_app, (count_items_menu (mkMenu n ch)). simpl children.
    lia.
Qed.

(** X3: every menu item of a forest that is registered is either
    added to the registry or reported: the menu items of the registry
    after, plus the lines printed, are the menu items before plus those
    of the forest; and nothing else is printed than the line of a
    discarded item. *)
Theorem register_forest_adds_or_reports :
  forall (this : MenuManager) (forest : list Menu),
    let after := register_forest this forest in
    count_items (menus (fst after)) + List.length (snd after) =
    count_items (menus this) + count_items (map inl forest) /\
    Forall (eq "Menu item already registered") (snd after).
Proof.
  intros this forest after. subst after. rewrite register_forest_eq.
  destruct (merge_children_accounted (map inl forest)) with (found_children := _menus this)
    as [H F].
  { intros [sub | item] _ l; simpl.
    - apply _registerMenu_accounted.
    - apply _registerMenuItem_accounted. }
  unfold bind, ret.
  destruct (merge_children (map inl forest) (_menus this)) as [ms out].
  simpl in *. rewrite app_nil_r. split; assumption.
Qed.

(** ** Forests whose sibling names all differ *)

Lemma merge_children_verbatim (new_children : list MenuNode) :
  (forall sub, In (inl sub) new_children -> forall l,
     ~ In (menu_name sub) (menu_names l) ->
     _registerMenu l sub = (l ++ [inl sub], [])) ->
  NoDup (map name new_children) ->
  forall found_children,
    (forall c, In c new_children ->
       match c with
       | inl m => ~ In (menu_name m) (menu_names found_children)
       | inr i => ~ In (item_name i) (map name found_children)
       end) ->
    merge_children new_children found_children =
    (found_children ++ new_children, []).
Proof.
  unfold merge_children.
  induction new_children as [| c rest IH]; intros Hsub Hnd acc Hfresh.
  - simpl. now rewrite app_nil_r.
  - inversion Hnd as [| x xs Hc Hrest]; subst.
    rewrite for_of_cons.
    assert (Hstep : _registerNode acc c = (acc ++ [c], [])).
    { pose proof (Hfresh c (or_introl eq_refl)) as Hf.
      destruct c as [sub | item]; simpl.
      - apply Hsub; simpl; auto.
      - rewrite _registerMenuItem_eq.
        destruct (in_dec string_dec _ _); [contradiction | reflexivity]. }
    rewrite Hstep. unfold bind.
    rewrite IH.
    + now rewrite <- app_assoc.
    + intros sub H. apply Hsub. simpl. auto.
    + assumption.
    + intros c' Hin'.
      assert (Hne : name c' <> name c).
      { intros E. apply Hc. rewrite <- E. now apply in_map. }
      pose proof (Hfresh c' (or_intror Hin')) as Hf'.
      destruct c' as [m' | i'].
      * rewrite menu_names_app, in_app_iff. intros [H | H]; [contradiction |].
        destruct c as [m | i]; simpl in *; intuition.
      * rewrite map_app, in_app_iff. intros [H | H]; [contradiction |].
        simpl in *. intuition.
Qed.

Lemma _registerMenu_verbatim (m : Menu) :
  distinct_names (children m) ->
  forall l,
    ~ In (menu_name m) (menu_names l) ->
    _registerMenu l m = (l ++ [inl m], []).
Proof.
  induction m as [n kids IH] using Menu_nested_ind.
  intros Hd l Hl. simpl in Hd, Hl. inversion Hd as [l0 Hnd Hkids]; subst.
  rewrite _registerMenu_eq. simpl menu_name. simpl children.
  rewrite with_found_menu_missing by assumption.
  rewrite merge_children_verbatim.
  - reflexivity.
  - intros sub Hin. apply IH; [assumption |]. now apply Hkids.
  - assumption.
  - intros [sub | item] _; simpl; tauto.
Qed.

(** X4: a forest in which the names of every sibling list all differ,
    registered into a registry whose top level has no menu of any of its
    names, is added as it is: its menus follow those of the registry, in
    order and unchanged, and nothing is printed. *)
Theorem register_forest_verbatim :
  forall (this : MenuManager) (forest : list Menu),
    distinct_names (map inl forest) ->
    (forall m, In m forest -> ~ In (menu_name m) (menu_names (menus this))) ->
    register_forest this forest =
    ({| _menus := menus this ++ map inl forest |}, []).
Proof.
  intros this forest Hd Hfresh. inversion Hd as [l Hnd Hkids]; subst.
  rewrite register_forest_eq, merge_children_verbatim.
  - reflexivity.
  - intros sub Hin. apply _registerMenu_verbatim. now apply Hkids.
  - assumption.
  - intros [m | i] Hin; apply in_map_iff in Hin;
      destruct Hin as [m0 [E Hin]]; [| discriminate].
    injection E as <-. now apply Hfresh.
Qed.

Lemma register_forest_verbatim_witness :
  let new := inr (mkMenuItem "New" "file.new" JS.VNull) in
  let file := mkMenu "File" [new; inl (mkMenu "Recent" [new])] in
  let edit := mkMenu "Edit" [new] in
  register_forest {| _menus := [inl edit] |} [file] =
  ({| _menus := [inl edit; inl file] |}, []).
Proof.
  cbv zeta.
  apply (register_forest_verbatim
           {| _menus := [inl (mkMenu "Edit" [inr (mkMenuItem "New" "file.new" JS.VNull)])] |}
           [mkMenu "File" [inr (mkMenuItem "New" "file.new" JS.VNull);
                           inl (mkMenu "Recent"
                                  [inr (mkMenuItem "New" "file.new" JS.VNull)])]]).
  - repeat first
      [ progress simpl
      | match goal with
        | |- distinct_names _ => constructor
        | |- NoDup _ => constructor
        | |- ~ _ => intros H; simpl in H; intuition discriminate
        | |- forall m, _ \/ _ -> _ => intros m [E | H]
        | |- forall m, False -> _ => intros m []
        | E : inl _ = inl _ |- _ => injection E as <-
        | E : inr _ = inl _ |- _ => discriminate E
        | H : _ \/ _ |- _ => destruct H
        | H : False |- _ => destruct H
        end ].
  - intros m [<- | []]. simpl. intros [H | []]. discriminate.
Defined.

(** ** The first registration wins *)

Lemma absorbed_menu_with_plugin (pluginInfo : PluginInfo) (m : Menu) :
  forall l,
    absorbed l (inl m) ->
    absorbed l (inl (menu_with_plugin pluginInfo m)).
Proof.
  induction m as [n kids IH] using Menu_nested_ind.
  intros l Ha.
  inversion Ha as [| l0 m0 before found after El Hb Hn Hkids]; subst.
  eapply absorbed_menu; [reflexivity | exact Hb | exact Hn |].
  simpl in *. intros c' Hin'. apply in_map_iff in Hin'.
  destruct Hin' as [c [<- Hin]]. specialize (Hkids c Hin).
  destruct c as [sub | item].
  - now apply IH.
  - inversion Hkids; subst. now constructor.
Qed.

(** X5: when a forest has been registered and the same forest comes
    again for another plugin, nothing of the second one gets in: the
    registry stays as the first registration left it, with the plugin
    of the first on every menu item it took, and one line is printed
    for each menu item of the second. *)
Theorem register_forest_first_plugin_wins :
  forall (this : MenuManager) (forest : list Menu) (pluginInfo : PluginInfo),
    let once := fst (register_forest this forest) in
    let again := map (menu_with_plugin pluginInfo) forest in
    register_forest once again =
    (once, repeat "Menu item already registered" (count_items (map inl again))).
Proof.
  intros this forest pluginInfo once again. subst once again.
  rewrite !register_forest_eq.
  pose proof (merge_children_absorbs (map inl forest)
                (fun c _ l => _registerNode_absorbs c l) (_menus this)) as Ha.
  unfold bind, ret in *.
  destruct (merge_children (map inl forest) (_menus this)) as [ms out].
  simpl in *. rewrite merge_children_absorbed.
  - now rewrite app_nil_r.
  - intros c _ l. apply _registerNode_absorbed.
  - intros c Hin. apply in_map_iff in Hin. destruct Hin as [m' [<- Hin]].
    apply in_map_iff in Hin. destruct Hin as [m [<- Hin]].
    apply absorbed_menu_with_plugin. apply Ha. now apply in_map.
Qed.

(** X6: after a forest is registered, each of its menus is found in
    the registry: the top level has a menu of its name, and below the
    first menu of that name every child of the menu has a sibling of
    its name, a menu item by any node of that name, a menu by a menu
    that holds its children in the same way. *)
Theorem register_forest_present :
  forall (this : MenuManager) (forest : list Menu) (m : Menu),
    In m forest ->
    let after := menus (fst (register_forest this forest)) in
    absorbed after (inl m) /\ In (menu_name m) (menu_names after).
Proof.
  intros this forest m Hin after. subst after.
  rewrite register_forest_eq.
  pose proof (merge_children_absorbs (map inl forest)
                (fun c _ l => _registerNode_absorbs c l) (_menus this)
                (inl m) (in_map inl _ _ Hin)) as Ha.
  unfold bind, ret.
  destruct (merge_children (map inl forest) (_menus this)) as [ms out].
  simpl in *. split; [exact Ha |].
  inversion Ha as [| l0 m0 before found after El Hb Hn Hkids]; subst.
  rewrite menu_names_app, in_app_iff. right. simpl. auto.
Qed.

Lemma register_forest_present_witness :
  let file := mkMenu "File" [inr (mkMenuItem "New" "file.new" JS.VNull)] in
  let after := menus (fst (register_forest constructor [file])) in
  absorbed after (inl file) /\ In "File" (menu_names after).
Proof.
  intros file after.
  apply (register_forest_present constructor [file] file).
  simpl. auto.
Defined.

End RegistryMore.

(** * More on the menu parser *)
Module ParserMore.
Import JS MenuParser Parser.

Lemma get_own_Forall (P : value -> Prop) props key :
  Forall (fun kv => P (snd kv)) props ->
  truthy (get_own props key) = true ->
  P (get_own props key).
Proof.
  induction 1 as [| [k v] rest Hv Hrest IH]; simpl.
  - discriminate.
  - destruct (String.eqb k key); auto.
Qed.

Lemma visit_node_object {St} onMenu onMenuItem props (s : St) :
  visit_node onMenu onMenuItem (VObj props) s =
  if truthy (get_own props "children") then
    '(s1, r) <- onMenu (VObj props) s ;;
    if is_false r then Ok (VObj props, s1, false)
    else
      '(children', s2, r) <-
        _menuForEach onMenu onMenuItem (get_own props "children") s1 ;;
      Ok (VObj (set_own props "children" children'), s2, r)
  else visit_item onMenuItem (VObj props) s.
Proof.
  destruct (truthy (get_own props "children")) eqn:E.
  - unfold visit_node.
    rewrite (with_own_property_truthy _ _ _ _ _ eq_refl E). now rewrite E.
  - now apply visit_node_item.
Qed.

Lemma _menuForEach_string {St} onMenu onMenuItem (str : string) (s : St) :
  _menuForEach onMenu onMenuItem (VStr str) s =
  ('(_, s', r) <- for_of (visit_item onMenuItem) (characters str) s ;;
   Ok (VStr str, s', r)).
Proof. reflexivity. Qed.

(** ** What the traversal can throw *)

Section Throws.
Context {St : Type}.
Variable onMenu : value -> St -> result (St * callback_result).
Variable onMenuItem : value -> St -> result (value * St * callback_result).
Hypothesis onMenu_throws :
  forall m s e, onMenu m s = Throw e -> e = TypeError.
Hypothesis onMenuItem_throws :
  forall m s e, onMenuItem m s = Throw e -> e = TypeError.

Lemma visit_item_throws m (s : St) e :
  visit_item onMenuItem m s = Throw e -> e = TypeError.
Proof.
  unfold visit_item. destruct (onMenuItem m s) as [[[m' s1] r] | e0] eqn:E; simpl.
  - discriminate.
  - intros [= <-]. eauto.
Qed.

Lemma for_of_throws (visit : value -> St -> result (value * St * bool)) l :
  Forall (fun m => forall s e, visit m s = Throw e -> e = TypeError) l ->
  forall s e, for_of visit l s = Throw e -> e = TypeError.
Proof.
  induction 1 as [| m rest Hm Hrest IH]; intros s e; simpl; [discriminate |].
  destruct (visit m s) as [[[m' s1] go_on] | e0] eqn:E; simpl.
  - destruct go_on; [| discriminate].
    destruct (for_of visit rest s1) as [[[rest' s2] r] | e1] eqn:E1; simpl.
    + discriminate.
    + intros [= <-]. eauto.
  - intros [= <-]. eauto.
Qed.

Lemma traversal_throws (v : value) :
  (forall s e, _menuForEach onMenu onMenuItem v s = Throw e -> e = TypeError) /\
  (forall s e, visit_node onMenu onMenuItem v s = Throw e -> e = TypeError).
Proof.
  induction v as [| | b | n | str | elems IH | props IH] using value_nested_ind;
    (split; intros s e);
    try (simpl; now intros [= <-]);
    try (apply visit_item_throws).
  - rewrite _menuForEach_string.
    destruct (for_of (visit_item onMenuItem) (characters str) s)
      as [[[l s'] r] | e0] eqn:E; simpl; [discriminate |].
    intros [= <-]. eapply for_of_throws; [| exact E].
    apply Forall_forall. intros m _ s0 e1. apply visit_item_throws.
  - rewrite _menuForEach_array.
    destruct (for_of (visit_node onMenu onMenuItem) elems s)
      as [[[l s'] r] | e0] eqn:E; simpl; [discriminate |].
    intros [= <-]. eapply for_of_throws; [| exact E].
    eapply Forall_impl; [| exact IH]. intros m [_ H]. exact H.
  - rewrite visit_node_object.
    destruct (truthy (get_own props "children")) eqn:Ht;
      [| apply visit_item_throws].
    destruct (get_own_Forall
                (fun v =>
                   (forall s e, _menuForEach onMenu onMenuItem v s = Throw e ->
                                e = TypeError) /\
                   (forall s e, visit_node onMenu onMenuItem v s = Throw e ->
                                e = TypeError))
                _ _ IH Ht) as [Hc _].
    destruct (onMenu (VObj props) s) as [[s1 r] | e0] eqn:E; simpl.
    + destruct (is_false r); [discriminate |].
      destruct (_menuForEach onMenu onMenuItem (get_own props "children") s1)
        as [[[c' s2] r'] | e1] eqn:E1; simpl; [discriminate |].
      intros [= <-]. eauto.
    + intros [= <-]. eauto.
Qed.
End Throws.

Lemma isEmpty_throws (v : value) e : isEmpty v = Throw e -> e = TypeError.
Proof.
  unfold isEmpty. destruct (truthy v); [| discriminate].
  destruct v; try discriminate; now intros [= <-].
Qed.

Lemma get_throws (v : value) key e : get v key = Throw e -> e = TypeError.
Proof. destruct v; simpl; try discriminate; now intros [= <-]. Qed.

Lemma check_menu_throws m s e : check_menu m s = Throw e -> e = TypeError.
Proof.
  unfold check_menu.
  destruct (get m "name") as [nm | e0] eqn:E; simpl;
    [| intros [= <-]; eapply get_throws; eassumption].
  destruct (isEmpty nm) as [b | e0] eqn:E1; simpl;
    [| intros [= <-]; eapply isEmpty_throws; eassumption].
  destruct b; discriminate.
Qed.

Lemma check_menu_item_throws m s e :
  check_menu_item m s = Throw e -> e = TypeError.
Proof.
  unfold check_menu_item.
  destruct (get m "name") as [nm | e0] eqn:E; simpl;
    [| intros [= <-]; eapply get_throws; eassumption].
  destruct (isEmpty nm) as [b | e0] eqn:E1; simpl;
    [| intros [= <-]; eapply isEmpty_throws; eassumption].
  destruct b; simpl; [| discriminate].
  destruct (get m "command") as [cmd | e0] eqn:E2; simpl;
    [| intros [= <-]; eapply get_throws; eassumption].
  destruct (isEmpty cmd) as [b | e0] eqn:E3; simpl;
    [| intros [= <-]; eapply isEmpty_throws; eassumption].
  destruct b; discriminate.
Qed.

Lemma link_plugin_throws pluginInfo m s e :
  link_plugin pluginInfo m s = Throw e -> e = TypeError.
Proof.
  unfold link_plugin. destruct m; simpl; try discriminate; now intros [= <-].
Qed.

(** ** What the first pass answers *)

Local Notation "'first_pass_answer' v s v' s' r" :=
  (v' = v /\ if r : bool then s' = s else In s' schema_rules)
  (at level 10, v at level 9, s at level 9, v' at level 9, s' at level 9,
   r at level 9).

Lemma check_menu_ok m (s s1 : string) r :
  check_menu m s = Ok (s1, r) ->
  (r = Some true /\ s1 = s) \/ (r = Some false /\ In s1 schema_rules).
Proof.
  unfold check_menu.
  destruct (get m "name") as [nm | e0]; simpl; [| discriminate].
  destruct (isEmpty nm) as [b | e0]; simpl; [| discriminate].
  destruct b; simpl; intros [= <- <-]; simpl; auto.
Qed.

Lemma check_menu_item_ok m (s s1 : string) m' r :
  check_menu_item m s = Ok (m', s1, r) ->
  m' = m /\
  ((r = Some true /\ s1 = s) \/ (r = Some false /\ In s1 schema_rules)).
Proof.
  unfold check_menu_item.
  destruct (get m "name") as [nm | e0]; simpl; [| discriminate].
  destruct (isEmpty nm) as [b | e0]; simpl; [| discriminate].
  destruct b; simpl; [| intros [= <- <- <-]; simpl; auto 10].
  destruct (get m "command") as [cmd | e0]; simpl; [| discriminate].
  destruct (isEmpty cmd) as [b | e0]; simpl; [| discriminate].
  destruct b; simpl; intros [= <- <- <-]; simpl; auto 10.
Qed.

Lemma check_item_answer m (s s' : string) m' r :
  visit_item check_menu_item m s = Ok (m', s', r) ->
  first_pass_answer m s m' s' r.
Proof.
  unfold visit_item.
  destruct (check_menu_item m s) as [[[m1 s1] r1] | e0] eqn:E; simpl;
    [| discriminate].
  intros [= <- <- <-].
  destruct (check_menu_item_ok _ _ _ _ _ E) as [-> [[-> ->] | [-> Hin]]];
    simpl; auto.
Qed.

Lemma for_of_answer (visit : value -> string -> result (value * string * bool)) l :
  Forall (fun m => forall s m' s' r,
            visit m s = Ok (m', s', r) -> first_pass_answer m s m' s' r) l ->
  forall s l' s' r,
    for_of visit l s = Ok (l', s', r) -> first_pass_answer l s l' s' r.
Proof.
  induction 1 as [| m rest Hm Hrest IH]; intros s l' s' r; simpl.
  - intros [= <- <- <-]. auto.
  - destruct (visit m s) as [[[m1 s1] go_on] | e0] eqn:E; simpl; [| discriminate].
    destruct (Hm _ _ _ _ E) as [-> H1].
    destruct go_on.
    + subst s1.
      destruct (for_of visit rest s) as [[[rest1 s2] r2] | e1] eqn:E1; simpl;
        [| discriminate].
      intros [= <- <- <-]. destruct (IH _ _ _ _ E1) as [-> H2]. auto.
    + intros [= <- <- <-]. auto.
Qed.

Lemma first_pass_answers (v : value) :
  (forall s v' s' r,
      _menuForEach check_menu check_menu_item v s = Ok (v', s', r) ->
      first_pass_answer v s v' s' r) /\
  (forall s v' s' r,
      visit_node check_menu check_menu_item v s = Ok (v', s', r) ->
      first_pass_answer v s v' s' r).
Proof.
  induction v as [| | b | n | str | elems IH | props IH] using value_nested_ind;
    (split; intros s v' s' r);
    try (simpl; discriminate);
    try (apply check_item_answer).
  - rewrite _menuForEach_string.
    destruct (for_of (visit_item check_menu_item) (characters str) s)
      as [[[l s1] r1] | e0] eqn:E; simpl; [| discriminate].
    intros [= <- <- <-]. split; [reflexivity |].
    eapply (for_of_answer _ (characters str)); [| exact E].
    apply Forall_forall. intros m _ s0 m' s0' r0. apply check_item_answer.
  - rewrite _menuForEach_array.
    destruct (for_of (visit_node check_menu check_menu_item) elems s)
      as [[[l s1] r1] | e0] eqn:E; simpl; [| discriminate].
    intros [= <- <- <-].
    assert (Hall : Forall (fun m => forall s m' s' r,
                      visit_node check_menu check_menu_item m s = Ok (m', s', r) ->
                      first_pass_answer m s m' s' r) elems).
    { eapply Forall_impl; [| exact IH]. intros m [_ H]. exact H. }
    destruct (for_of_answer _ elems Hall _ _ _ _ E) as [-> H]. auto.
  - rewrite visit_node_object.
    destruct (truthy (get_own props "children")) eqn:Ht;
      [| apply check_item_answer].
    destruct (get_own_Forall
                (fun v =>
                   (forall s v' s' r,
                       _menuForEach check_menu check_menu_item v s = Ok (v', s', r) ->
                       first_pass_answer v s v' s' r) /\
                   (forall s v' s' r,
                       visit_node check_menu check_menu_item v s = Ok (v', s', r) ->
                       first_pass_answer v s v' s' r))
                _ _ IH Ht) as [Hc _].
    destruct (check_menu (VObj props) s) as [[s1 r1] | e0] eqn:E; simpl;
      [| discriminate].
    destruct (check_menu_ok _ _ _ _ E) as [[-> ->] | [-> Hin]]; simpl.
    + destruct (_menuForEach check_menu check_menu_item
                  (get_own props "children") s)
        as [[[c' s2] r2] | e1] eqn:E1; simpl; [| discriminate].
      intros [= <- <- <-]. destruct (Hc _ _ _ _ E1) as [-> H].
      now rewrite (set_own_same _ _ _ eq_refl Ht).
    + intros [= <- <- <-]. auto.
Qed.

(** X7: the first pass of [parse] does not change what it visits:
    when the traversal with the two checks of [_getError] returns, the
    menus are as they were, and either it answers [true] and the error
    message is untouched, or it answers [false] and the error message is
    one of the three rules. *)
Theorem first_pass_changes_nothing :
  forall (menus : value) (errorMsg : string)
         (menus' : value) (errorMsg' : string) (valid : bool),
    _menuForEach check_menu check_menu_item menus errorMsg =
    Ok (menus', errorMsg', valid) ->
    menus' = menus /\
    if valid then errorMsg' = errorMsg else In errorMsg' schema_rules.
Proof.
  intros menus errorMsg menus' errorMsg' valid H.
  exact (proj1 (first_pass_answers menus) _ _ _ _ H).
Qed.

Lemma first_pass_changes_nothing_witness :
  let menus :=
    VArr [VObj [("name", VStr "File");
                ("children", VArr [VObj [("name", VStr "New")]])]] in
  menus = menus /\ In "Menu items must have a command" schema_rules.
Proof.
  intros menus.
  apply (first_pass_changes_nothing menus "" menus
           "Menu items must have a command" false).
  reflexivity.
Defined.

(** ** What the first pass lets through *)

Lemma isEmpty_true (v : value) :
  isEmpty v = Ok true -> exists str, v = VStr str /\ blank str = false.
Proof.
  unfold isEmpty. destruct (truthy v) eqn:Ht; [| discriminate].
  destruct v; try discriminate.
  intros [= H]. exists s. split; [reflexivity |].
  cbn [truthy] in H. rewrite remove_white_space_empty in H.
  now destruct (blank s).
Qed.

Lemma check_menu_passes props (s s1 : string) r :
  check_menu (VObj props) s = Ok (s1, r) ->
  is_false r = false ->
  exists n, get_own props "name" = VStr n /\ blank n = false.
Proof.
  unfold check_menu. cbn [get JS.bind].
  destruct (isEmpty (get_own props "name")) as [b | e0] eqn:E; simpl;
    [| discriminate].
  destruct b; simpl; intros [= <- <-]; [| discriminate].
  intros _. now apply isEmpty_true.
Qed.

Lemma check_item_passes m (s s' : string) m' :
  visit_item check_menu_item m s = Ok (m', s', true) ->
  exists props n c,
    m = VObj props /\
    get_own props "name" = VStr n /\ blank n = false /\
    get_own props "command" = VStr c /\ blank c = false.
Proof.
  unfold visit_item, check_menu_item.
  destruct (get m "name") as [nm | e0] eqn:En; simpl; [| discriminate].
  destruct (isEmpty nm) as [b | e0] eqn:E1; simpl; [| discriminate].
  destruct b; simpl; [| discriminate].
  destruct (get m "command") as [cmd | e0] eqn:Ec; simpl; [| discriminate].
  destruct (isEmpty cmd) as [b | e0] eqn:E2; simpl; [| discriminate].
  destruct b; simpl; [| discriminate].
  intros _.
  destruct (isEmpty_true _ E1) as [n [-> Hn]].
  destruct (isEmpty_true _ E2) as [c [-> Hc]].
  destruct m; simpl in En, Ec; try discriminate.
  injection En as En. injection Ec as Ec.
  exists props, n, c. auto.
Qed.

Local Notation "'well_shaped' v n" :=
  (represents v n /\ first_violation (node_nodes n) = None)
  (at level 10, v at level 9, n at level 9).

Lemma for_of_passes (visit : value -> string -> result (value * string * bool)) l :
  Forall (fun m => forall s m' s',
            visit m s = Ok (m', s', true) -> exists n, well_shaped m n) l ->
  forall s l' s',
    for_of visit l s = Ok (l', s', true) ->
    exists forest,
      Forall2 represents l forest /\
      first_violation (forest_nodes forest) = None.
Proof.
  induction 1 as [| m rest Hm Hrest IH]; intros s l' s'; simpl.
  - intros _. exists []. split; [constructor | reflexivity].
  - destruct (visit m s) as [[[m1 s1] go_on] | e0] eqn:E; simpl; [| discriminate].
    destruct go_on; [| discriminate].
    destruct (for_of visit rest s1) as [[[rest1 s2] r2] | e1] eqn:E1; simpl;
      [| discriminate].
    intros [= <- <- ->].
    destruct (Hm _ _ _ E) as [n [Hn Hv]].
    destruct (IH _ _ _ E1) as [forest [Hf Hvf]].
    exists (n :: forest). split; [now constructor |].
    change (forest_nodes (n :: forest)) with (node_nodes n ++ forest_nodes forest).
    now rewrite first_violation_app, Hv.
Qed.

Lemma first_pass_passes (v : value) :
  (forall s v' s',
      _menuForEach check_menu check_menu_item v s = Ok (v', s', true) ->
      v = VStr "" \/
      exists forest,
        represents_forest v forest /\
        first_violation (forest_nodes forest) = None) /\
  (forall s v' s',
      visit_node check_menu check_menu_item v s = Ok (v', s', true) ->
      exists n, well_shaped v n).
Proof.
  induction v as [| | b | n | str | elems IH | props IH] using value_nested_ind;
    (split; intros s v' s');
    try (simpl; discriminate);
    try (intros H; apply check_item_passes in H;
         destruct H as (? & ? & ? & E & _); discriminate).
  - rewrite _menuForEach_string. destruct str as [| c rest]; [now left |].
    simpl. discriminate.
  - rewrite _menuForEach_array.
    destruct (for_of (visit_node check_menu check_menu_item) elems s)
      as [[[l s1] r1] | e0] eqn:E; simpl; [| discriminate].
    intros [= <- <- ->]. right.
    assert (Hall : Forall (fun m => forall s m' s',
                      visit_node check_menu check_menu_item m s = Ok (m', s', true) ->
                      exists n, well_shaped m n) elems).
    { eapply Forall_impl; [| exact IH]. intros m [_ H]. exact H. }
    destruct (for_of_passes _ elems Hall _ _ _ E) as [forest [Hf Hv]].
    exists forest. split; [| assumption]. exists elems. auto.
  - rewrite visit_node_object.
    destruct (truthy (get_own props "children")) eqn:Ht.
    + destruct (get_own_Forall
                  (fun v =>
                     (forall s v' s',
                         _menuForEach check_menu check_menu_item v s = Ok (v', s', true) ->
                         v = VStr "" \/
                         exists forest,
                           represents_forest v forest /\
                           first_violation (forest_nodes forest) = None) /\
                     (forall s v' s',
                         visit_node check_menu check_menu_item v s = Ok (v', s', true) ->
                         exists n, well_shaped v n))
                  _ _ IH Ht) as [Hc _].
      destruct (check_menu (VObj props) s) as [[s1 r1] | e0] eqn:E; simpl;
        [| discriminate].
      destruct (is_false r1) eqn:Hr; [discriminate |].
      destruct (_menuForEach check_menu check_menu_item
                  (get_own props "children") s1)
        as [[[c' s2] r2] | e1] eqn:E1; simpl; [| discriminate].
      intros [= <- <- ->].
      destruct (check_menu_passes _ _ _ _ E Hr) as [n [Hn Hb]].
      destruct (Hc _ _ _ E1) as [Hs | [forest [[kids [Hk Hf]] Hv]]].
      * rewrite Hs in Ht. discriminate.
      * exists (inl (mkMenu n forest)). split.
        -- eapply represents_menu; eassumption.
        -- cbn [node_nodes]. rewrite menu_nodes_eq.
           cbn [first_violation rule_violated menu_name children].
           now rewrite Hb.
    + intros H. apply check_item_passes in H.
      destruct H as (props0 & n & c & [= <-] & Hn & Hbn & Hc & Hbc).
      exists (inr (mkMenuItem n c (get_own props "plugin"))). split.
      * now apply represents_item.
      * cbn [node_nodes first_violation rule_violated item_name command].
        now rewrite Hbn, Hbc.
Qed.

(** ** [parse] as a whole *)

Lemma SchemaError_rule_truthy (rule : string) :
  In rule schema_rules -> truthy (VStr rule) = true.
Proof.
  simpl. intros [<- | [<- | [<- | []]]]; reflexivity.
Qed.

Section ParseAsAWhole.
Variable JSON_parse : string -> option value.

Lemma parse_throws_after_JSON (content : string) (pluginInfo : PluginInfo)
  (v : value) (e : exn) :
  JSON_parse content = Some v ->
  parse JSON_parse content pluginInfo = Throw e ->
  e = TypeError \/ exists rule, In rule schema_rules /\ e = SchemaError rule.
Proof.
  intros Hparse. unfold parse, _getError. rewrite Hparse. cbn [JS.bind].
  destruct (_menuForEach check_menu check_menu_item v "")
    as [[[v1 msg] valid] | e0] eqn:E; cbn [JS.bind].
  - destruct (proj1 (first_pass_answers v) _ _ _ _ E) as [-> Hmsg].
    destruct valid; cbn [JS.bind truthy_error error_text].
    + destruct (_menuForEach skip_menu (link_plugin pluginInfo) v tt)
        as [[[v2 u] r] | e1] eqn:E2; cbn [JS.bind]; [discriminate |].
      intros [= <-]. left.
      eapply (proj1 (traversal_throws skip_menu (link_plugin pluginInfo) _ _ v));
        exact E2.
    + rewrite (SchemaError_rule_truthy _ Hmsg). intros [= <-]. eauto.
  - intros [= <-]. left.
    eapply (proj1 (traversal_throws check_menu check_menu_item _ _ v)); exact E.
  Unshelve.
  + intros m s e0. unfold skip_menu. discriminate.
  + apply link_plugin_throws.
  + apply check_menu_throws.
  + apply check_menu_item_throws.
Qed.

(** X8: whatever the content, [parse] throws nothing but its format
    error, a schema error with one of the three rules of [_getError],
    or a [TypeError] of the runtime. *)
Theorem parse_throws_only :
  forall (content : string) (pluginInfo : PluginInfo) (e : exn),
    parse JSON_parse content pluginInfo = Throw e ->
    e = FormatError \/ e = TypeError \/
    exists rule, In rule schema_rules /\ e = SchemaError rule.
Proof.
  intros content pluginInfo e H.
  destruct (JSON_parse content) as [v |] eqn:Hparse.
  - right. eapply parse_throws_after_JSON; eassumption.
  - left. unfold parse in H. rewrite Hparse in H. now injection H as <-.
Qed.

(** X9: [parse] throws its format error exactly when [JSON.parse]
    throws; content that [JSON.parse] takes never ends in that error. *)
Theorem parse_format_error_iff :
  forall (content : string) (pluginInfo : PluginInfo),
    parse JSON_parse content pluginInfo = Throw FormatError <->
    JSON_parse content = None.
Proof.
  intros content pluginInfo. split.
  - intros H. destruct (JSON_parse content) as [v |] eqn:Hparse; [| reflexivity].
    destruct (parse_throws_after_JSON _ _ _ _ Hparse H)
      as [E | [rule [_ E]]]; discriminate E.
  - intros H. unfold parse. now rewrite H.
Qed.

(** X10: [parse] returns only for content that deserializes to the
    empty string, which it hands back, or to a forest of menus and menu
    items in which no name and no command is blank, which it hands back
    with [pluginInfo] as the plugin of every menu item. *)
Theorem parse_returns_only_valid_forests :
  forall (content : string) (pluginInfo : PluginInfo) (v' : value),
    parse JSON_parse content pluginInfo = Ok v' ->
    exists v,
      JSON_parse content = Some v /\
      ((v = VStr "" /\ v' = VStr "") \/
       exists forest,
         represents_forest v forest /\
         existsb invalid_node (forest_nodes forest) = false /\
         represents_forest v' (map (node_with_plugin pluginInfo) forest)).
Proof.
  intros content pluginInfo v'. unfold parse, _getError.
  destruct (JSON_parse content) as [v |]; cbn [JS.bind]; [| discriminate].
  intros H. exists v. split; [reflexivity |]. revert H.
  destruct (_menuForEach check_menu check_menu_item v "")
    as [[[v1 msg] valid] | e0] eqn:E; cbn [JS.bind]; [| discriminate].
  destruct (proj1 (first_pass_answers v) _ _ _ _ E) as [-> Hmsg].
  destruct valid; cbn [JS.bind truthy_error error_text].
  - destruct (proj1 (first_pass_passes v) _ _ _ E)
      as [-> | [forest [Hr Hv]]].
    + simpl. intros [= <-]. now left.
    + destruct (link_forest pluginInfo v forest Hr) as [v2 [Hlink Hv2]].
      rewrite Hlink. cbn [JS.bind]. intros [= <-]. right.
      exists forest. repeat split; try assumption.
      now apply first_violation_none.
  - rewrite (SchemaError_rule_truthy _ Hmsg). discriminate.
Qed.
End ParseAsAWhole.

Lemma parse_throws_only_witness :
  let e := SchemaError "Menu items must have a command" in
  e = FormatError \/ e = TypeError \/
  exists rule, In rule schema_rules /\ e = SchemaError rule.
Proof.
  apply (parse_throws_only
           (fun _ => Some (VArr [VObj [("name", VStr "New")]])) "content" VNull).
  reflexivity.
Defined.

Lemma parse_returns_only_valid_forests_witness :
  let v := VArr [VObj [("name", VStr "New"); ("command", VStr "file.new")]] in
  let v' := VArr [VObj [("name", VStr "New"); ("command", VStr "file.new");
                        ("plugin", VStr "files")]] in
  exists v0,
    Some v = Some v0 /\
    ((v0 = VStr "" /\ v' = VStr "") \/
     exists forest,
       represents_forest v0 forest /\
       existsb invalid_node (forest_nodes forest) = false /\
       represents_forest v' (map (node_with_plugin (VStr "files")) forest)).
Proof.
  intros v v'.
  apply (parse_returns_only_valid_forests (fun _ => Some v) "content"
           (VStr "files") v').
  reflexivity.
Defined.

(** X11: content that is a JSON string is gone through character by
    character: the empty string is returned as it is, any other string
    is a schema error, for a menu item without a name. *)
Theorem parse_string_content :
  forall (JSON_parse : string -> option value) (content : string)
         (pluginInfo : PluginInfo) (str : string),
    JSON_parse content = Some (VStr str) ->
    parse JSON_parse content pluginInfo =
    if String.eqb str "" then Ok (VStr "")
    else Throw (SchemaError "Menu items must be named").
Proof.
  intros JSON_parse content pluginInfo str H. unfold parse. rewrite H.
  destruct str as [| c rest]; reflexivity.
Qed.

Lemma parse_string_content_witness :
  parse (fun _ => Some (VStr "File")) "content" VNull =
  Throw (SchemaError "Menu items must be named").
Proof.
  apply (parse_string_content (fun _ => Some (VStr "File")) "content" VNull "File").
  reflexivity.
Defined.

(** X12: a first node whose name is no string with something else
    than white space in it makes [parse] throw: a [TypeError] when the
    name is truthy and not a string (a number, [true], an array, an
    object), and otherwise (no name, [null], [false], [0], a blank
    string) the schema error of a menu without a name when the node has
    children, of a menu item without a name when it has none. *)
Theorem parse_first_node_name :
  forall (JSON_parse : string -> option value) (content : string)
         (pluginInfo : PluginInfo) (props : list (string * value))
         (rest : list value),
    JSON_parse content = Some (VArr (VObj props :: rest)) ->
    (forall str, get_own props "name" = VStr str -> blank str = true) ->
    parse JSON_parse content pluginInfo =
    match get_own props "name" with
    | VBool true | VNum (Zpos _) | VNum (Zneg _) | VArr _ | VObj _ =>
        Throw TypeError
    | _ =>
        if truthy (get_own props "children")
        then Throw (SchemaError "Menus must be named")
        else Throw (SchemaError "Menu items must be named")
    end.
Proof.
  intros JSON_parse content pluginInfo props rest H Hblank.
  unfold parse, _getError. rewrite H. cbn [JS.bind].
  rewrite _menuForEach_array. cbn [for_of]. rewrite visit_node_object.
  destruct (get_own props "name") as [| | b | n | str | elems | fields] eqn:En;
    destruct (truthy (get_own props "children"));
    unfold visit_item, check_menu, check_menu_item; cbn [get JS.bind];
    rewrite En;
    try rewrite isEmpty_string, (Hblank str eq_refl);
    try reflexivity;
    try (destruct b; reflexivity);
    try (destruct n; reflexivity).
Qed.

Lemma parse_first_node_name_witness :
  parse (fun _ => Some (VArr [VObj [("command", VStr "file.new")]])) "content" VNull =
  Throw (SchemaError "Menu items must be named").
Proof.
  apply (parse_first_node_name
           (fun _ => Some (VArr [VObj [("command", VStr "file.new")]]))
           "content" VNull [("command", VStr "file.new")] []).
  - reflexivity.
  - simpl. discriminate.
Defined.

End ParserMore.

(** * The store *)
Module StoreFacts.
Import JSArray Store.

(** ** Arrays *)
Section ArrayFacts.
Context {A : Type}.
Variable same : forall a b : A, {a = b} + {a <> b}.

Lemma indexOf_bounds (l : list A) (x : A) :
  (-1 <= indexOf same l x < Z.of_nat (List.length l))%Z.
Proof.
  induction l as [| y l IH]; simpl; [lia |].
  destruct (same y x); [lia |].
  destruct (Z.ltb_spec (indexOf same l x) 0); lia.
Qed.

Lemma indexOf_missing (l : list A) (x : A) :
  ~ In x l -> indexOf same l x = (-1)%Z.
Proof.
  induction l as [| y l IH]; simpl; [reflexivity |].
  intros H. destruct (same y x) as [E | NE]; [tauto |].
  rewrite IH by tauto. reflexivity.
Qed.

Lemma indexOf_first (before after : list A) (x : A) :
  ~ In x before ->
  indexOf same (before ++ x :: after) x = Z.of_nat (List.length before).
Proof.
  induction before as [| y before IH]; simpl; intros H.
  - destruct (same x x); [reflexivity | congruence].
  - destruct (same y x) as [E | NE]; [tauto |].
    rewrite IH by tauto.
    destruct (Z.ltb_spec (Z.of_nat (List.length before)) 0); lia.
Qed.

Lemma in_split_first (l : list A) (x : A) :
  In x l -> exists before after, l = before ++ x :: after /\ ~ In x before.
Proof.
  induction l as [| y l IH]; simpl; [tauto |].
  intros H. destruct (same y x) as [-> | NE].
  - exists [], l. auto.
  - destruct H as [E | H]; [contradiction |].
    destruct (IH H) as (before & after & -> & Hb).
    exists (y :: before), after. simpl. intuition.
Qed.

Lemma indexOf_found (l : list A) (x : A) :
  indexOf same l x <> (-1)%Z -> In x l.
Proof.
  intros H. destruct (in_dec same x l) as [Hin | Hout]; [assumption |].
  now rewrite indexOf_missing in H.
Qed.

Lemma includes_In (l : list A) (x : A) :
  includes same l x = true <-> In x l.
Proof.
  unfold includes. rewrite existsb_exists. split.
  - intros [y [Hin Hy]]. destruct (same y x); [now subst | discriminate].
  - intros Hin. exists x. split; [assumption |].
    destruct (same x x); [reflexivity | congruence].
Qed.

Lemma at_index_In (l : list A) (i : Z) (x : A) :
  at_index l i = Some x -> In x l.
Proof.
  unfold at_index. destruct (i <? 0)%Z; [discriminate |].
  apply nth_error_In.
Qed.

Lemma at_index_app (before after : list A) (x : A) :
  at_index (before ++ x :: after) (Z.of_nat (List.length before)) = Some x.
Proof.
  unfold at_index.
  destruct (Z.ltb_spec (Z.of_nat (List.length before)) 0); [lia |].
  rewrite Nat2Z.id, nth_error_app2 by lia.
  now rewrite Nat.sub_diag.
Qed.

Lemma at_index_negative (l : list A) (i : Z) :
  (i < 0)%Z -> at_index l i = None.
Proof.
  intros H. unfold at_index. destruct (Z.ltb_spec i 0); [reflexivity | lia].
Qed.

Lemma at_index_beyond (l : list A) (i : Z) :
  (Z.of_nat (List.length l) <= i)%Z -> at_index l i = None.
Proof.
  intros H. unfold at_index. destruct (Z.ltb_spec i 0); [reflexivity |].
  apply nth_error_None. lia.
Qed.

Lemma list_segment (l : list A) (from count : nat) :
  l = firstn from l ++ firstn count (skipn from l) ++ skipn (from + count) l.
Proof.
  rewrite Nat.add_comm, <- skipn_skipn, firstn_skipn.
  now rewrite firstn_skipn.
Qed.

(** What [splice] deletes is a segment of the array, and what it leaves
    is the array with the items in place of that segment. *)
Lemma splice_segment (l : list A) (start deleteCount : Z) (items : list A) :
  exists before after,
    l = before ++ snd (splice l start deleteCount items) ++ after /\
    fst (splice l start deleteCount items) = before ++ items ++ after.
Proof.
  unfold splice. cbn [fst snd].
  eexists. eexists. split; [apply list_segment | reflexivity].
Qed.

Lemma firstn_prefix (before rest : list A) :
  firstn (List.length before) (before ++ rest) = before.
Proof. induction before; simpl; congruence. Qed.

Lemma skipn_prefix (before rest : list A) :
  skipn (List.length before) (before ++ rest) = rest.
Proof. induction before; simpl; congruence. Qed.

Lemma splice_at (before after : list A) (x : A) (items : list A) :
  splice (before ++ x :: after) (Z.of_nat (List.length before)) 1 items =
  (before ++ items ++ after, [x]).
Proof.
  unfold splice. rewrite length_app. simpl List.length.
  destruct (Z.ltb_spec (Z.of_nat (List.length before)) 0); [lia |].
  replace (Z.to_nat (Z.min (Z.of_nat (List.length before))
                       (Z.of_nat (List.length before + S (List.length after)))))
    with (List.length before) by lia.
  replace (Z.to_nat (Z.min (Z.max 1 0) _)) with 1 by lia.
  rewrite (Nat.add_comm (List.length before) 1), <- skipn_skipn.
  now rewrite firstn_prefix, skipn_prefix.
Qed.

Lemma splice_last (init : list A) (x : A) :
  splice (init ++ [x]) (-1) 1 [] = (init, [x]).
Proof.
  unfold splice. rewrite length_app. simpl List.length.
  change (-1 <? 0)%Z with true. cbv iota.
  replace (Z.to_nat (Z.max (Z.of_nat (List.length init + 1) + -1) 0))
    with (List.length init) by lia.
  replace (Z.to_nat (Z.min (Z.max 1 0) _)) with 1 by lia.
  rewrite (Nat.add_comm (List.length init) 1), <- skipn_skipn.
  rewrite firstn_prefix, skipn_prefix. simpl. now rewrite app_nil_r.
Qed.

Lemma splice_nil (start deleteCount : Z) :
  splice (@nil A) start deleteCount [] = ([], []).
Proof.
  unfold splice. simpl List.length.
  rewrite !skipn_nil, !firstn_nil. reflexivity.
Qed.
End ArrayFacts.

(** ** The run configurations *)
Section RunConfigurations.
Context {RunConfiguration FileInfoState : Type}.
Variable same_config : forall a b : RunConfiguration, {a = b} + {a <> b}.

Local Notation "'State'" := (RootState RunConfiguration FileInfoState).
Local Notation "'commit'" :=
  (@Store.commit RunConfiguration FileInfoState same_config).

Lemma at_index_within (l : list RunConfiguration) (i : Z) :
  (0 <= i < Z.of_nat (List.length l))%Z -> exists x, at_index l i = Some x.
Proof.
  intros H. unfold at_index. destruct (Z.ltb_spec i 0); [lia |].
  destruct (nth_error l (Z.to_nat i)) as [x |] eqn:E; [eauto |].
  apply nth_error_None in E. lia.
Qed.

(** Removing what sits at a known position. *)
Lemma removeRunConfig_at (state : State) (config : RunConfiguration + Z)
  (before after : list RunConfiguration) (x : RunConfiguration) :
  runConfigurations state = before ++ x :: after ->
  match config with
  | inl c => c = x /\ ~ In x before
  | inr n => n = Z.of_nat (List.length before)
  end ->
  removeRunConfig same_config state config =
  let state' := set_runConfigurations state (before ++ after) in
  match chosenRunConfig state with
  | None => state'
  | Some chosen =>
      if Nat.eqb (List.length (before ++ after)) 0 then
        set_chosenRunConfig state' None
      else if same_config x chosen then
        set_chosenRunConfig state'
          (at_index (before ++ after)
             (Z.min (Z.of_nat (List.length before))
                    (Z.of_nat (List.length (before ++ after)) - 1)))
      else state'
  end.
Proof.
  intros Hl Hc. unfold removeRunConfig. rewrite Hl.
  assert (Hidx : match config with
                 | inl c => indexOf same_config (before ++ x :: after) c
                 | inr n => n
                 end = Z.of_nat (List.length before)).
  { destruct config as [c | n]; [| assumption].
    destruct Hc as [-> Hb]. now apply indexOf_first. }
  rewrite Hidx, splice_at. cbn [app].
  cbn [set_runConfigurations chosenRunConfig runConfigurations].
  destruct (chosenRunConfig state) as [chosen |]; [| reflexivity].
  destruct (Nat.eqb (List.length (before ++ after)) 0); [reflexivity |].
  unfold includes. cbn [existsb].
  destruct (same_config x chosen); reflexivity.
Qed.

Lemma addRunConfig_chosen_in_list (state : State) (config : RunConfiguration) :
  chosen_in_list state -> chosen_in_list (addRunConfig state config).
Proof.
  destruct state as [l chosen st files focused cwd electron].
  unfold chosen_in_list, addRunConfig. simpl.
  destruct chosen as [chosen |]; simpl; intros H;
    apply in_or_app; simpl; auto.
Qed.

Lemma removeRunConfig_chosen_in_list (state : State) (config : RunConfiguration + Z) :
  chosen_in_list state -> chosen_in_list (removeRunConfig same_config state config).
Proof.
  destruct state as [l chosen st files focused cwd electron].
  unfold chosen_in_list, removeRunConfig.
  cbn [runConfigurations chosenRunConfig].
  set (index := match config with inl c => _ | inr n => n end).
  destruct (splice_segment l index 1 []) as (before & after & Hl & Hr).
  destruct (splice l index 1 []) as [remaining deleted].
  cbn [fst snd app] in Hl, Hr. subst remaining.
  cbn [set_runConfigurations chosenRunConfig runConfigurations].
  destruct chosen as [chosen |]; [| trivial].
  intros Hin.
  destruct (Nat.eqb (List.length (before ++ after)) 0); [exact I |].
  destruct (includes same_config deleted chosen) eqn:Hd;
    cbn [set_chosenRunConfig set_runConfigurations chosenRunConfig
         runConfigurations].
  - destruct (at_index (before ++ after) _) as [x |] eqn:E; [| exact I].
    eapply at_index_In; eassumption.
  - rewrite Hl in Hin. rewrite !in_app_iff in Hin. rewrite in_app_iff.
    destruct Hin as [H | [H | H]]; auto.
    apply (includes_In same_config) in H. congruence.
Qed.

Lemma overwriteRunConfig_found (state : State)
  (oldConfig newConfig : RunConfiguration)
  (before after : list RunConfiguration) :
  runConfigurations state = before ++ oldConfig :: after ->
  ~ In oldConfig before ->
  overwriteRunConfig same_config state (oldConfig, newConfig) =
  let state' := set_runConfigurations state (before ++ newConfig :: after) in
  match chosenRunConfig state with
  | Some chosen =>
      if same_config oldConfig chosen
      then set_chosenRunConfig state' (Some newConfig)
      else state'
  | None => state'
  end.
Proof.
  intros Hl Hb. unfold overwriteRunConfig.
  rewrite Hl, indexOf_first by assumption.
  destruct (Z.eqb_spec (Z.of_nat (List.length before)) (-1)); [lia |].
  rewrite splice_at. reflexivity.
Qed.

Lemma overwriteRunConfig_missing (state : State)
  (oldConfig newConfig : RunConfiguration) :
  ~ In oldConfig (runConfigurations state) ->
  overwriteRunConfig same_config state (oldConfig, newConfig) = state.
Proof.
  intros H. unfold overwriteRunConfig. now rewrite indexOf_missing.
Qed.

Lemma overwriteRunConfig_chosen_in_list (state : State)
  (oldConfig newConfig : RunConfiguration) :
  chosen_in_list state ->
  chosen_in_list (overwriteRunConfig same_config state (oldConfig, newConfig)).
Proof.
  intros H.
  destruct (in_dec same_config oldConfig (runConfigurations state)) as [Hin | Hout].
  - destruct (in_split_first same_config _ _ Hin) as (before & after & Hl & Hb).
    rewrite (overwriteRunConfig_found _ _ _ _ _ Hl Hb).
    destruct state as [l chosen st files focused cwd electron].
    unfold chosen_in_list in *. simpl in *. subst l.
    destruct chosen as [chosen |]; simpl; [| exact I].
    destruct (same_config oldConfig chosen) as [E | NE]; simpl.
    + apply in_or_app. simpl. auto.
    + apply in_app_iff in H. apply in_or_app. simpl in *. intuition.
  - now rewrite overwriteRunConfig_missing.
Qed.

(** X13: through any sequence of the three mutations of the run
    configurations, with any payloads, from the state the store starts
    with, the chosen run configuration is either undefined or one of
    the list. *)
Theorem chosen_run_config_stays_in_list :
  forall (window_has_require : bool) (mutations : list (run_config_mutation)),
    chosen_in_list
      (fold_left commit mutations (initial_state window_has_require)).
Proof.
  intros window_has_require mutations.
  assert (H : forall state : State,
             chosen_in_list state ->
             chosen_in_list (fold_left commit mutations state)).
  { induction mutations as [| m ms IH]; intros state Hs; [exact Hs |].
    simpl. apply IH. destruct m as [c | c | o n]; simpl.
    - now apply addRunConfig_chosen_in_list.
    - now apply removeRunConfig_chosen_in_list.
    - now apply overwriteRunConfig_chosen_in_list. }
  apply H. exact I.
Qed.

(** X14: asked to remove a run configuration that is not in the list,
    [removeRunConfig] removes the last one of the list (the [-1] of
    [indexOf] goes to [splice]); if that one was the chosen one, or the
    only one, nothing is chosen afterwards. *)
Theorem removeRunConfig_missing_removes_last :
  forall (state : State) (config : RunConfiguration)
         (init : list RunConfiguration) (last : RunConfiguration),
    runConfigurations state = init ++ [last] ->
    ~ In config (runConfigurations state) ->
    let after := removeRunConfig same_config state (inl config) in
    runConfigurations after = init /\
    chosenRunConfig after =
    match chosenRunConfig state with
    | None => None
    | Some chosen =>
        if same_config last chosen then None
        else match init with
             | [] => None
             | _ :: _ => Some chosen
             end
    end.
Proof.
  intros state config init last Hl Hout.
  destruct state as [l chosen st files focused cwd electron].
  simpl in *. subst l. unfold removeRunConfig.
  cbn [runConfigurations chosenRunConfig].
  rewrite indexOf_missing by assumption. rewrite splice_last.
  cbn [set_runConfigurations chosenRunConfig runConfigurations].
  destruct chosen as [chosen |]; [| auto].
  unfold includes. cbn [existsb].
  destruct init as [| y init]; cbn [List.length Nat.eqb].
  - destruct (same_config last chosen); auto.
  - destruct (same_config last chosen);
      cbn [orb set_chosenRunConfig chosenRunConfig runConfigurations];
      [| auto].
    split; [reflexivity |]. apply at_index_negative. lia.
Qed.

(** X15: adding a run configuration that is not in the list and
    removing it again gives the state back, list and choice, when the
    state had a chosen run configuration of the list or an empty list
    and no choice. *)
Theorem add_then_remove_run_config :
  forall (state : State) (config : RunConfiguration),
    chosen_when_possible state ->
    ~ In config (runConfigurations state) ->
    removeRunConfig same_config (addRunConfig state config) (inl config) = state.
Proof.
  intros state config Hs Hout.
  destruct state as [l chosen st files focused cwd electron].
  unfold chosen_when_possible in Hs. simpl in *.
  destruct chosen as [chosen |].
  - rewrite (removeRunConfig_at _ (inl config) l [] config);
      [| reflexivity | auto].
    simpl. rewrite app_nil_r.
    destruct l as [| y l]; [destruct Hs |]. simpl.
    destruct (same_config config chosen) as [-> | NE]; [contradiction |].
    reflexivity.
  - subst l.
    rewrite (removeRunConfig_at _ (inl config) [] [] config);
      [reflexivity | reflexivity | auto].
Qed.

(** X16: removing a run configuration of the list removes its first
    occurrence. When it was the chosen one, the choice goes to the one
    that followed it, or to the one before it when it was last, or to
    nothing when it was the only one; another choice stays. *)
Theorem removeRunConfig_moves_choice :
  forall (state : State) (config : RunConfiguration)
         (before after : list RunConfiguration),
    runConfigurations state = before ++ config :: after ->
    ~ In config before ->
    let state' := removeRunConfig same_config state (inl config) in
    runConfigurations state' = before ++ after /\
    (chosenRunConfig state = Some config ->
     chosenRunConfig state' =
     match after with
     | next :: _ => Some next
     | [] => match rev before with
             | previous :: _ => Some previous
             | [] => None
             end
     end) /\
    (forall chosen,
        chosenRunConfig state = Some chosen -> chosen <> config ->
        In chosen (runConfigurations state) ->
        chosenRunConfig state' = Some chosen).
Proof.
  intros state config before after Hl Hb state'. subst state'.
  rewrite (removeRunConfig_at state (inl config) before after config Hl)
    by auto.
  destruct state as [l chosen st files focused cwd electron].
  simpl in *. subst l. repeat split.
  - destruct chosen; simpl;
      repeat match goal with |- context [if ?c then _ else _] => destruct c end;
      reflexivity.
  - intros ->. simpl.
    destruct after as [| next after].
    + rewrite app_nil_r.
      destruct (rev before) as [| previous r] eqn:Er.
      * apply (f_equal (@rev _)) in Er. rewrite rev_involutive in Er.
        subst before. reflexivity.
      * apply (f_equal (@rev _)) in Er. rewrite rev_involutive in Er.
        simpl in Er. subst before.
        rewrite length_app. simpl List.length.
        replace (Nat.eqb (List.length (rev r) + 1) 0) with false
          by (symmetry; apply Nat.eqb_neq; lia).
        destruct (same_config config config); [| congruence]. simpl.
        replace (Z.min (Z.of_nat (List.length (rev r) + 1))
                   (Z.of_nat (List.length (rev r) + 1) - 1))
          with (Z.of_nat (List.length (rev r))) by lia.
        now rewrite at_index_app.
    + rewrite length_app. simpl List.length.
      replace (Nat.eqb (List.length before + S (List.length after)) 0) with false
        by (symmetry; apply Nat.eqb_neq; lia).
      destruct (same_config config config); [| congruence]. simpl.
      replace (Z.min (Z.of_nat (List.length before))
                 (Z.of_nat (List.length before + S (List.length after)) - 1))
        with (Z.of_nat (List.length before)) by lia.
      now rewrite at_index_app.
  - intros chosen0 -> Hne Hin. simpl.
    assert (Hin' : In chosen0 (before ++ after)).
    { rewrite in_app_iff in *. simpl in Hin. intuition congruence. }
    destruct (before ++ after) as [| y rest]; [destruct Hin' |]. simpl.
    destruct (same_config config chosen0); [congruence | reflexivity].
Qed.

(** X17: [overwriteRunConfig] leaves the state as it is when the old
    run configuration is not in the list; otherwise it puts the new one
    in the place of the first occurrence of the old one, and the choice
    follows when the old one was chosen. *)
Theorem overwriteRunConfig_replaces_first :
  forall (state : State) (oldConfig newConfig : RunConfiguration),
    (~ In oldConfig (runConfigurations state) ->
     overwriteRunConfig same_config state (oldConfig, newConfig) = state) /\
    (forall before after,
        runConfigurations state = before ++ oldConfig :: after ->
        ~ In oldConfig before ->
        let state' := overwriteRunConfig same_config state (oldConfig, newConfig) in
        runConfigurations state' = before ++ newConfig :: after /\
        chosenRunConfig state' =
        match chosenRunConfig state with
        | Some chosen =>
            if same_config oldConfig chosen then Some newConfig else Some chosen
        | None => None
        end).
Proof.
  intros state oldConfig newConfig. split.
  - apply overwriteRunConfig_missing.
  - intros before after Hl Hb state'. subst state'.
    rewrite (overwriteRunConfig_found _ _ _ _ _ Hl Hb).
    destruct state as [l chosen st files focused cwd electron]. simpl.
    destruct chosen as [chosen |]; [| auto].
    destruct (same_config oldConfig chosen); auto.
Qed.

(** X18: a state in which a run configuration of the list is chosen,
    or the list is empty and nothing is chosen, stays so when a run
    configuration is added, when one of the list is removed, by itself
    or by its index, and when one is overwritten. *)
Theorem chosen_whenever_possible :
  forall (state : State) (m : run_config_mutation),
    chosen_when_possible state ->
    match m with
    | RemoveRunConfig (inl config) => In config (runConfigurations state)
    | RemoveRunConfig (inr n) =>
        (0 <= n < Z.of_nat (List.length (runConfigurations state)))%Z
    | _ => True
    end ->
    chosen_when_possible (commit state m).
Proof.
  intros state m Hs Hm. destruct m as [c | c | o n]; cbn [Store.commit].
  - destruct state as [l chosen st files focused cwd electron].
    unfold chosen_when_possible, addRunConfig in *. simpl in *.
    destruct chosen as [chosen |]; simpl; apply in_or_app; simpl; auto.
  - assert (Hat : exists before x after,
               runConfigurations state = before ++ x :: after /\
               match c with
               | inl c => c = x /\ ~ In x before
               | inr n => n = Z.of_nat (List.length before)
               end).
    { destruct c as [c | n].
      - destruct (in_split_first same_config _ _ Hm) as (before & after & Hl & Hb).
        exists before, c, after. auto.
      - destruct (nth_error (runConfigurations state) (Z.to_nat n)) as [x |] eqn:E.
        + destruct (nth_error_split _ _ E) as (before & after & Hl & Hlen).
          exists before, x, after. split; [assumption | lia].
        + apply nth_error_None in E. lia. }
    destruct Hat as (before & x & after & Hl & Hc).
    rewrite (removeRunConfig_at state c before after x Hl Hc).
    destruct state as [l chosen st files focused cwd electron].
    unfold chosen_when_possible in *. simpl in *. subst l.
    destruct chosen as [chosen |]; [| now destruct before].
    destruct (Nat.eqb_spec (List.length (before ++ after)) 0) as [Hz0 | Hnz].
    + cbn. now apply length_zero_iff_nil.
    + destruct (same_config x chosen) as [E | NE];
        cbn [set_chosenRunConfig set_runConfigurations chosenRunConfig
             runConfigurations].
      * destruct (at_index_within (before ++ after)
                    (Z.min (Z.of_nat (List.length before))
                       (Z.of_nat (List.length (before ++ after)) - 1)))
          as [z Hz].
        { rewrite length_app in *. lia. }
        rewrite Hz. eapply at_index_In; eassumption.
      * rewrite in_app_iff in *. simpl in Hs. intuition congruence.
  - destruct (in_dec same_config o (runConfigurations state)) as [Hin | Hout].
    + destruct (in_split_first same_config _ _ Hin) as (before & after & Hl & Hb).
      rewrite (overwriteRunConfig_found _ _ _ _ _ Hl Hb).
      destruct state as [l chosen st files focused cwd electron].
      unfold chosen_when_possible in *. simpl in *. subst l.
      destruct chosen as [chosen |]; [| now destruct before].
      destruct (same_config o chosen) as [E | NE]; simpl.
      * apply in_or_app. simpl. auto.
      * rewrite in_app_iff in *. simpl in *. intuition congruence.
    + now rewrite overwriteRunConfig_missing.
Qed.

End RunConfigurations.


Lemma removeRunConfig_missing_removes_last_witness :
  let state :=
    @mkRootState nat nat [1; 2] (Some 2)
      (mkSettingsState (mkSettingsGeneralState "") (mkSettingsAppearanceState AUTO))
      [] (-1)%Z None false in
  let after := removeRunConfig Nat.eq_dec state (inl 7) in
  runConfigurations after = [1] /\ chosenRunConfig after = None.
Proof.
  intros state after.
  apply (removeRunConfig_missing_removes_last Nat.eq_dec state 7 [1] 2).
  - reflexivity.
  - simpl. lia.
Defined.

Lemma add_then_remove_run_config_witness :
  let state :=
    @mkRootState nat nat [1] (Some 1)
      (mkSettingsState (mkSettingsGeneralState "") (mkSettingsAppearanceState AUTO))
      [] (-1)%Z None false in
  removeRunConfig Nat.eq_dec (addRunConfig state 2) (inl 2) = state.
Proof.
  intros state.
  apply (add_then_remove_run_config Nat.eq_dec state 2).
  - unfold chosen_when_possible. simpl. auto.
  - simpl. lia.
Defined.

Lemma removeRunConfig_moves_choice_witness :
  let state :=
    @mkRootState nat nat [1; 2; 3] (Some 2)
      (mkSettingsState (mkSettingsGeneralState "") (mkSettingsAppearanceState AUTO))
      [] (-1)%Z None false in
  let state' := removeRunConfig Nat.eq_dec state (inl 2) in
  runConfigurations state' = [1; 3] /\ chosenRunConfig state' = Some 3.
Proof.
  intros state state'.
  destruct (removeRunConfig_moves_choice Nat.eq_dec state 2 [1] [3])
    as (Hl & Hc & _).
  - reflexivity.
  - simpl. lia.
  - split; [exact Hl | exact (Hc eq_refl)].
Defined.

Lemma overwriteRunConfig_replaces_first_witness :
  let state :=
    @mkRootState nat nat [1; 2] (Some 2)
      (mkSettingsState (mkSettingsGeneralState "") (mkSettingsAppearanceState AUTO))
      [] (-1)%Z None false in
  let state' := overwriteRunConfig Nat.eq_dec state (2, 5) in
  runConfigurations state' = [1; 5] /\ chosenRunConfig state' = Some 5.
Proof.
  intros state state'.
  apply (proj2 (overwriteRunConfig_replaces_first Nat.eq_dec state 2 5) [1] []).
  - reflexivity.
  - simpl. lia.
Defined.

Lemma chosen_whenever_possible_witness :
  let state :=
    @mkRootState nat nat [1; 2] (Some 2)
      (mkSettingsState (mkSettingsGeneralState "") (mkSettingsAppearanceState AUTO))
      [] (-1)%Z None false in
  chosen_when_possible (commit Nat.eq_dec state (RemoveRunConfig (inr 1%Z))).
Proof.
  intros state.
  apply (chosen_whenever_possible Nat.eq_dec state (RemoveRunConfig (inr 1%Z))).
  - unfold chosen_when_possible. simpl. auto.
  - simpl. lia.
Defined.

(** ** The open files *)
Section OpenFiles.
Context {RunConfiguration FileInfoState : Type}.
Variable same_file : forall a b : FileInfoState, {a = b} + {a <> b}.

Local Notation "'State'" := (RootState RunConfiguration FileInfoState).

Lemma at_index_indexOf (l : list FileInfoState) (f : FileInfoState) :
  In f l -> at_index l (indexOf same_file l f) = Some f.
Proof.
  intros Hin.
  destruct (in_split_first same_file _ _ Hin) as (before & after & -> & Hb).
  rewrite indexOf_first by assumption. apply at_index_app.
Qed.

(** X19: focusing a file by the object and then setting the extended
    flag sets the [extWhile] of that file, and of no other, when the
    file is open; when it is not, the focus is [-1] and the flag of no
    file changes. *)
Theorem focus_then_set_extended :
  forall (state : State) (file : FileInfoState)
         (extWhile : FileInfoState -> bool) (isExt : bool),
    let focused := openFiles_setFocused same_file state (inr file) in
    (focusedFile focused = (-1)%Z <-> ~ In file (openFiles state)) /\
    openFiles_focused_setExtended same_file focused extWhile isExt =
    if in_dec same_file file (openFiles state)
    then JS.Ok (fun f => if same_file f file then isExt else extWhile f)
    else JS.Ok extWhile.
Proof.
  intros state file extWhile isExt focused. subst focused.
  destruct state as [l chosen st files focus cwd electron].
  unfold openFiles_setFocused, openFiles_focused_setExtended. simpl.
  pose proof (indexOf_bounds same_file files file) as Hbounds.
  split.
  - split.
    + intros H Hin. destruct (in_split_first same_file _ _ Hin)
        as (before & after & -> & Hb).
      rewrite indexOf_first in H by assumption. lia.
    + apply indexOf_missing.
  - destruct (in_dec same_file file files) as [Hin | Hout].
    + rewrite at_index_indexOf by assumption.
      destruct (Z.leb_spec 0 (indexOf same_file files file)); [reflexivity |].
      exfalso. destruct (in_split_first same_file _ _ Hin)
        as (before & after & -> & Hb).
      rewrite indexOf_first in * by assumption. lia.
    + rewrite indexOf_missing by assumption. reflexivity.
Qed.

(** X20: ['openFiles.set'] leaves the focus where it was; when the
    focus is then at or beyond the end of the new list of files,
    setting the extended flag throws a [TypeError], and with a negative
    focus it does nothing. *)
Theorem set_extended_after_set :
  forall (state : State) (files : list FileInfoState)
         (extWhile : FileInfoState -> bool) (isExt : bool),
    let state' := openFiles_set state files in
    focusedFile state' = focusedFile state /\
    ((Z.of_nat (List.length files) <= focusedFile state)%Z ->
     (0 <= focusedFile state)%Z ->
     openFiles_focused_setExtended same_file state' extWhile isExt =
     JS.Throw JS.TypeError) /\
    ((focusedFile state < 0)%Z ->
     openFiles_focused_setExtended same_file state' extWhile isExt =
     JS.Ok extWhile).
Proof.
  intros state files extWhile isExt state'. subst state'.
  destruct state as [l chosen st old focus cwd electron].
  unfold openFiles_set, openFiles_focused_setExtended. simpl.
  repeat split.
  - intros Hlen Hpos. destruct (Z.leb_spec 0 focus); [| lia].
    now rewrite at_index_beyond.
  - intros Hneg. destruct (Z.leb_spec 0 focus); [lia | reflexivity].
Qed.
End OpenFiles.

Lemma set_extended_after_set_witness :
  let state :=
    @mkRootState nat nat [] None
      (mkSettingsState (mkSettingsGeneralState "") (mkSettingsAppearanceState AUTO))
      [10; 11; 12] 2%Z None false in
  openFiles_focused_setExtended Nat.eq_dec (openFiles_set state [10])
    (fun _ => false) true = JS.Throw JS.TypeError.
Proof.
  intros state.
  apply (proj1 (proj2 (set_extended_after_set Nat.eq_dec state [10]
                         (fun _ => false) true))).
  - simpl. lia.
  - simpl. lia.
Defined.

End StoreFacts.

(** * The validator of a new folder's name *)
Module NewFolderFacts.
Import NewFolder.

Lemma all_in_class_Forall (s : string) :
  all_in_class s = true ->
  Forall (fun c => in_class c = true) (list_ascii_of_string s).
Proof.
  induction s as [| c rest IH]; simpl; [constructor |].
  intros H. apply andb_prop in H. destruct H as [Hc Hrest].
  constructor; auto.
Qed.

(** X21: a name the validator accepts is not empty, is the match it
    returns, and has no path separator, no line break and no null
    character in it: every character of it is a letter, a digit, an
    underscore, a space, a hyphen or a dot. *)
Theorem validator_accepts_plain_names :
  forall (name : string) (found : list string),
    validator name = Some found ->
    found = [name] /\ name <> "" /\
    Forall (fun c => in_class c = true /\
                     c <> "047"%char /\ c <> "092"%char /\
                     c <> "010"%char /\ c <> "013"%char /\ c <> "000"%char)
           (list_ascii_of_string name).
Proof.
  intros name found. unfold validator.
  destruct name as [| c rest]; [discriminate |].
  destruct (all_in_class (String c rest)) eqn:E; [| discriminate].
  intros [= <-]. repeat split; [discriminate |].
  eapply Forall_impl; [| apply all_in_class_Forall; exact E].
  intros a Ha. repeat split; try assumption;
    intros ->; discriminate Ha.
Qed.

Lemma validator_accepts_plain_names_witness :
  [ "my folder-1.d" ] = [ "my folder-1.d" ] /\ "my folder-1.d" <> "" /\
  Forall (fun c => in_class c = true /\
                   c <> "047"%char /\ c <> "092"%char /\
                   c <> "010"%char /\ c <> "013"%char /\ c <> "000"%char)
         (list_ascii_of_string "my folder-1.d").
Proof.
  apply (validator_accepts_plain_names "my folder-1.d" ["my folder-1.d"]).
  reflexivity.
Defined.

End NewFolderFacts.
